(** * secure-trans-pad: the capture / segmentation / fan-out pipeline of main.py

    A shallow embedding of [TranscriptionService] (src/main.py): the audio
    callback with its amplitude gate, the drain-and-transcribe loop of
    [transcribe_audio], the [translate] consumer and the signal handler
    [handle_exit], together with the properties the specification states
    about them; further the device list of [list_audio_devices], the choice
    of the device and the start of the stream in [start_transcription] and
    the escaping of [update_webpage], with properties read off the code.

    External capabilities (the Whisper model, the LLM, the clock, PyAudio)
    are not part of the program: their answers enter the model as the
    payload of events, or as parameters where only a convention is needed. *)

From Stdlib Require Import ZArith QArith List Ascii String Lia Bool Sorted.
From Stdlib.Strings Require Import Byte.
From stdpp Require Import base list gmap.
Import ListNotations.

Close Scope Q_scope.
Open Scope nat_scope.

(* ===================================================================== *)
(** ** Python strings *)
(* ===================================================================== *)

(** A Python [str] is a sequence of Unicode code points. *)
Abbreviation pystr := (list N).

(** A source literal (ASCII only in main.py) as a [pystr]. *)
Definition lit (s : string) : pystr := List.map N_of_ascii (list_ascii_of_string s).

(** [str.isspace] on one code point: the characters CPython's
    [_PyUnicode_IsWhitespace] accepts, which are the ones [str.strip()]
    removes when called without argument. *)
Definition isspace (c : N) : bool :=
  ((9 <=? c) && (c <=? 13) || (28 <=? c) && (c <=? 32)
   || (c =? 133) || (c =? 160) || (c =? 5760)
   || (8192 <=? c) && (c <=? 8202)
   || (c =? 8232) || (c =? 8233) || (c =? 8239) || (c =? 8287)
   || (c =? 12288))%N.

Fixpoint lstrip (s : pystr) : pystr :=
  match s with
  | [] => []
  | c :: r => if isspace c then lstrip r else s
  end.

Definition rstrip (s : pystr) : pystr := rev (lstrip (rev s)).

(** [s.strip()] *)
Definition strip (s : pystr) : pystr := rstrip (lstrip s).

(** Truth value of a string in a condition: non-empty. *)
Definition truthy (s : pystr) : bool :=
  match s with [] => false | _ :: _ => true end.

(** [sep.join(l)] *)
Fixpoint join (sep : pystr) (l : list pystr) : pystr :=
  match l with
  | [] => []
  | [x] => x
  | x :: r => x ++ sep ++ join sep r
  end.

(* ===================================================================== *)
(** ** Floats that are only compared *)
(* ===================================================================== *)

(** [segment.no_speech_prob] is a float that the program only compares with
    the literal 0.5.  Every finite float is a rational and 0.5 is a float,
    so the comparison is the one on rationals; NaN compares false. *)
Inductive pyfloat :=
| Finite (q : Q)
| PosInf
| NegInf
| NaN.

Definition Qltb (x y : Q) : bool := (Qnum x * QDen y <? Qnum y * QDen x)%Z.

(** [x < y] on floats. *)
Definition float_ltb (x y : pyfloat) : bool :=
  match x, y with
  | NaN, _ | _, NaN => false
  | Finite a, Finite b => Qltb a b
  | NegInf, (Finite _ | PosInf) => true
  | Finite _, PosInf => true
  | _, _ => false
  end.

(* ===================================================================== *)
(** ** The amplitude gate (audio_callback, lines 87-93) *)
(* ===================================================================== *)

(** [in_data]: the bytes object PyAudio hands to the callback. *)
Abbreviation Frame := (list byte).

Definition SILENCE_THRESHOLD_MEAN : Z := 300.
Definition TRUNC_AUDIO_BUFFER : nat := 60.
Definition CHUNK : nat := 1024 * 128.

(** Reduction of an integer to the int16 range, two's complement. *)
Definition wrap16 (z : Z) : Z := ((z + 32768) mod 65536 - 32768)%Z.

Definition int16_of_bytes (lo hi : byte) : Z :=
  wrap16 (Z.of_N (Byte.to_N lo) + 256 * Z.of_N (Byte.to_N hi)).

(** [np.frombuffer(in_data, dtype=np.int16)]: consecutive little-endian
    byte pairs; a buffer of odd size raises ValueError ([None]). *)
Fixpoint frombuffer_int16 (b : list byte) : option (list Z) :=
  match b with
  | [] => Some []
  | [_] => None
  | lo :: hi :: r =>
      match frombuffer_int16 r with
      | Some xs => Some (int16_of_bytes lo hi :: xs)
      | None => None
      end
  end.

(** [np.abs] on an int16 array keeps the dtype: the result is reduced to
    int16 again, so the absolute value of -32768 is -32768. *)
Definition np_abs16 (x : Z) : Z := wrap16 (Z.abs x).

Definition zsum (xs : list Z) : Z := fold_right Z.add 0%Z xs.

(** [a.mean()] of an integer array: the sum in float64 divided by the
    number of elements; the mean of the empty array is NaN.  The sum of
    int16 values is an integer far below 2^53, hence exact.  The quotient
    is rounded, but it is only compared with the integer 300, and for a
    frame of less than 2^38 samples a quotient on one side of 300 is not
    rounded to the other side: the comparison is the one of the exact
    quotient. *)
Definition np_mean (xs : list Z) : pyfloat :=
  match xs with
  | [] => NaN
  | _ :: _ => Finite (Qmake (zsum xs) (Pos.of_nat (length xs)))
  end.

(** The condition of line 91, for an already decoded frame. *)
Definition loud (samples : list Z) : bool :=
  float_ltb (Finite (inject_Z SILENCE_THRESHOLD_MEAN))
            (np_mean (List.map np_abs16 samples)).

(** The mean absolute sample magnitude the specification speaks of, on the
    mathematical integers (no reduction to int16). *)
Definition mean_abs (samples : list Z) : pyfloat :=
  np_mean (List.map Z.abs samples).

(* ===================================================================== *)
(** ** The service object *)
(* ===================================================================== *)

(** What the program observes of a PyAudio stream and of the PyAudio
    instance that opened it. *)
Inductive StreamState := StreamActive | StreamStopped | StreamClosed.
Inductive PaState := PaInitialized | PaTerminated.

(** One value of [self.segment_timestamps]. *)
Record Timing := { t_start : Q; t_end : Q; t_delay : Q }.

(** The attributes of [TranscriptionService] that the pipeline reads and
    writes.  [audio_buffer] and [transcript_buffer] are Python lists,
    [segment_timestamps] a dict keyed by segment id. *)
Record Service := {
  audio_buffer : list Frame;
  transcript_buffer : list pystr;
  running : bool;
  stream : option StreamState;
  p_audio : option PaState;
  segment_timestamps : gmap nat Timing
}.

Definition set_audio_buffer (b : list Frame) (s : Service) : Service :=
  {| audio_buffer := b; transcript_buffer := transcript_buffer s;
     running := running s; stream := stream s; p_audio := p_audio s;
     segment_timestamps := segment_timestamps s |}.

Definition set_transcript_buffer (t : list pystr) (s : Service) : Service :=
  {| audio_buffer := audio_buffer s; transcript_buffer := t;
     running := running s; stream := stream s; p_audio := p_audio s;
     segment_timestamps := segment_timestamps s |}.

Definition set_running (r : bool) (s : Service) : Service :=
  {| audio_buffer := audio_buffer s; transcript_buffer := transcript_buffer s;
     running := r; stream := stream s; p_audio := p_audio s;
     segment_timestamps := segment_timestamps s |}.

Definition set_stream (st : option StreamState) (s : Service) : Service :=
  {| audio_buffer := audio_buffer s; transcript_buffer := transcript_buffer s;
     running := running s; stream := st; p_audio := p_audio s;
     segment_timestamps := segment_timestamps s |}.

Definition set_p_audio (p : option PaState) (s : Service) : Service :=
  {| audio_buffer := audio_buffer s; transcript_buffer := transcript_buffer s;
     running := running s; stream := stream s; p_audio := p;
     segment_timestamps := segment_timestamps s |}.

Definition set_segment_timestamps (m : gmap nat Timing) (s : Service) : Service :=
  {| audio_buffer := audio_buffer s; transcript_buffer := transcript_buffer s;
     running := running s; stream := stream s; p_audio := p_audio s;
     segment_timestamps := m |}.

(** [__init__] (lines 30-40). *)
Definition init_service : Service :=
  {| audio_buffer := []; transcript_buffer := []; running := true;
     stream := None; p_audio := None; segment_timestamps := ∅ |}.

(** The service once [start_transcription] has opened and started the
    stream (lines 280, 317, 324). *)
Definition started_service : Service :=
  set_stream (Some StreamActive) (set_p_audio (Some PaInitialized) init_service).

(** [--mode] and [--show-delay]; the other options select devices, models
    and files and do not reach the state above. *)
Inductive Mode := ModeTranscribe | ModeTranslateWhisper | ModeTranslateLlm.
Record Args := { mode : Mode; show_delay : bool }.

(** One element of what [self.model.transcribe] returns. *)
Record WhisperSegment := { seg_text : pystr; no_speech_prob : pyfloat }.

(** How a call ends. *)
Inductive Outcome := Returned | Raised.

(** What the pipeline does that can be seen from outside the service. *)
Inductive Obs :=
| ObsBurst (current_buffer : list Frame) (is_trunc : bool)
    (* the frames written to the WAV file given to the transcriber *)
| ObsAppend (segment_id : nat) (text : pystr)
    (* [self.transcript_buffer.append(text)], with the id of line 157 *)
| ObsYield (text : pystr)
    (* value yielded by [transcribe_audio] *)
| ObsRead (last_index : nat) (text : pystr)
    (* [translate] takes [self.transcript_buffer[last_index]] *)
| ObsPrompt (prompt_text : pystr)
    (* the text [translate] sends to the LLM *)
| ObsPrint (line : pystr)
    (* a line printed by [translate] *)
| ObsError.
    (* an exception left a task *)

(** Where [transcribe_audio] stands. *)
Inductive TranscriberPC :=
| AtLoopHead
    (* suspended in [asyncio.sleep], next it tests [self.running] *)
| InFlight (start_time : Q) (current_buffer : list Frame) (is_trunc : bool)
    (* between the drain (line 113) and the end of [model.transcribe] *)
| Finished.
    (* the loop was left, or an exception ended the generator *)

(** Where [translate] stands: [last_index] is a local of the coroutine. *)
Inductive TranslatorPC := TLoop | TExited | TFailed.
Record Translator := { last_index : nat; tstate : TranslatorPC }.

Record World := { svc : Service; tpc : TranscriberPC; trl : Translator }.

(** What the environment does next. *)
Inductive Event :=
| EvFrame (in_data : Frame)
    (* the capture thread calls [audio_callback] *)
| EvSignal
    (* SIGINT or SIGTERM: [handle_exit] runs *)
| EvTranscriberTick (now : Q)
    (* [transcribe_audio] resumes at the loop head; [now] is [time.time()] *)
| EvTranscribed (segments : option (list WhisperSegment)) (end_time : Q)
    (* the transcriber call of the cycle in flight ends: its segments, or
       [None] when it raises *)
| EvTranslatorTick (output : option pystr) (translation_delay : Q)
    (* [translate] resumes; [output] is what [model.prompt(...).text()]
       gives if it is called, [None] when it raises *)
| EvTranscriberTickRacing (now : Q) (early late : list Frame)
    (* as [EvTranscriberTick], with the capture thread at work meanwhile:
       it delivers [early] after the test of line 103 and before the
       copy of line 105 or 110, and [late] after the copy and before the
       reset of line 113; no lock keeps it out *)
| EvStart (opened : bool).
    (* [start_transcription] runs lines 280-325; [opened] tells whether
       the device was found and the stream could be opened *)

(* ===================================================================== *)
(** ** The methods *)
(* ===================================================================== *)

Section Pipeline.

(** The parsed command line, [self.args]. *)
Variable args : Args.

(** Python's [f"{x:.2f}"]. *)
Variable fmt2f : Q -> pystr.

(** The content of the translation prompt file. *)
Variable prompt : pystr.

(** PyAudio convention the source does not fix: whether asking a closed
    stream [is_active()] raises (which aborts the caller) or answers
    False. *)
Variable closed_stream_raises : bool.

(** *** audio_callback (lines 87-93) *)

Definition audio_callback (in_data : Frame) (s : Service) : Service * Outcome :=
  match frombuffer_int16 in_data with
  | None => (s, Raised)
  | Some audio_data =>
      if loud audio_data
      then (set_audio_buffer (audio_buffer s ++ [in_data]) s, Returned)
      else (s, Returned)
  end.

(** The capture thread calls [audio_callback] for each frame in turn. *)
Definition feed (frames : list Frame) (s : Service) : Service :=
  fold_left (fun s in_data => fst (audio_callback in_data s)) frames s.

(** What the capture thread does with [frames]: PyAudio calls back only
    while the stream is active. *)
Definition capture (frames : list Frame) (s : Service) : Service :=
  match stream s with
  | Some StreamActive => feed frames s
  | _ => s
  end.

(** *** handle_exit (lines 53-66) *)

Definition is_active (st : StreamState) : option bool :=
  match st with
  | StreamActive => Some true
  | StreamStopped => Some false
  | StreamClosed => if closed_stream_raises then None else Some false
  end.

Definition stop_stream (st : StreamState) : StreamState := StreamStopped.
Definition close (st : StreamState) : StreamState := StreamClosed.
Definition terminate (p : PaState) : PaState := PaTerminated.

(** Lines 63-64.  [PyAudio.terminate()] closes the streams the instance
    has opened and that are still open, here [self.stream]. *)
Definition terminate_p_audio (s : Service) : Service :=
  match p_audio s with
  | Some p =>
      set_p_audio (Some (terminate p))
        (match stream s with
         | Some st => set_stream (Some (close st)) s
         | None => s
         end)
  | None => s
  end.

Definition handle_exit (s : Service) : Service * Outcome :=
  let s := set_running false s in
  match stream s with
  | Some st =>
      match is_active st with
      | None => (s, Raised)
      | Some true =>
          let s := set_stream (Some (close (stop_stream st))) s in
          (terminate_p_audio s, Returned)
      | Some false => (terminate_p_audio s, Returned)
      end
  | None => (terminate_p_audio s, Returned)
  end.

(** *** transcribe_audio (lines 95-189) *)

(** Lines 144-148: the texts of the segments that pass the crude VAD. *)
Fixpoint kept_texts (segments : list WhisperSegment) : list pystr :=
  match segments with
  | [] => []
  | segment :: rest =>
      if float_ltb (no_speech_prob segment) (Finite (1 # 2))
      then seg_text segment :: kept_texts rest
      else kept_texts rest
  end.

(** Lines 150-152. *)
Definition cycle_text (is_trunc : bool) (segments : list WhisperSegment) : pystr :=
  let text := join (lit " ") (kept_texts segments) in
  if is_trunc then text ++ lit " (truncated)" else text.

(** Line 164. *)
Definition text_with_delay (text : pystr) (delay : Q) : pystr :=
  text ++ lit " [Delay: " ++ fmt2f delay ++ lit "s]".

(** Lines 97-113 and 184-189: the test of the loop and, when there is
    audio, the drain.  The drain reads [self.audio_buffer] at line 103,
    again at line 105 or 110, and replaces it at line 113, without a
    lock: the capture thread appends [early] between the test and the
    copy and [late] between the copy and the reset.  (Frames that arrive
    between the tests of lines 98 and 103 are as good as arrived before
    line 98, the buffer only grows.)  The status line is not modelled. *)
Definition loop_head (now : Q) (early late : list Frame) (s : Service)
  : Service * TranscriberPC * list Obs :=
  if running s then
    if 0 <? length (audio_buffer s) then
      let is_trunc := TRUNC_AUDIO_BUFFER <? length (audio_buffer s) in
      let s := capture early s in
      let current_buffer :=
        if is_trunc then firstn TRUNC_AUDIO_BUFFER (audio_buffer s)
        else audio_buffer s in
      let s := capture late s in
      (set_audio_buffer [] s,
       InFlight now current_buffer is_trunc,
       [ObsBurst current_buffer is_trunc])
    else (s, AtLoopHead, [])
  else (s, Finished, []).

(** *** start_transcription, lines 280-325 *)

(** The PyAudio instance is created; then either the stream is opened and
    started, or (device not found, or the open raises) the running flag is
    cleared and the method returns before it enters the loop. *)
Definition begin_stream (opened : bool) (s : Service) : Service * Outcome :=
  let s := set_p_audio (Some PaInitialized) s in
  if opened then (set_stream (Some StreamActive) s, Returned)
  else (set_running false s, Raised).

(** Lines 143-182, once the transcriber has answered. *)
Definition complete_cycle (start_time : Q) (is_trunc : bool)
    (segments : list WhisperSegment) (end_time : Q) (s : Service)
  : Service * list Obs :=
  let text := cycle_text is_trunc segments in
  let delay := Qminus end_time start_time in
  let segment_id := length (transcript_buffer s) in
  let s :=
    set_segment_timestamps
      (<[segment_id := {| t_start := start_time; t_end := end_time;
                          t_delay := delay |}]> (segment_timestamps s)) s in
  if truthy (strip text) then
    (set_transcript_buffer (transcript_buffer s ++ [text]) s,
     [ObsAppend segment_id text;
      ObsYield (if show_delay args then text_with_delay text delay else text)])
  else (s, []).

(** An exception of the transcriber leaves the generator and is caught
    in [start_transcription] (lines 347-349, 358-360). *)
Definition transcriber_failed (s : Service) : Service * list Obs :=
  (set_running false s, [ObsError]).

(** *** translate (lines 191-239) *)

(** Lines 204-207. *)
Definition delay_info (last_index : nat) (s : Service) : pystr :=
  match segment_timestamps s !! last_index with
  | Some t => lit " [Delay: " ++ fmt2f (t_delay t) ++ lit "s]"
  | None => []
  end.

Definition newline : pystr := [10%N].

(** One turn of the loop of the translate-llm branch (lines 200-221).
    The lookup answers [Some] exactly when
    [last_index < len(self.transcript_buffer)].  The call of the model
    suspends the coroutine between the read and the increment; both only
    touch locals of the coroutine.  The call is not guarded: when it
    raises, the exception leaves [translate]. *)
Definition translate_llm (output : option pystr) (translation_delay : Q)
    (s : Service) (t : Translator) : Translator * list Obs :=
  if running s then
    match transcript_buffer s !! last_index t with
    | Some text =>
        let prompt_text := prompt ++ newline ++ lit "---" ++ newline ++ text in
        match output with
        | None =>
            ({| last_index := last_index t; tstate := TFailed |},
             [ObsRead (last_index t) text; ObsPrompt prompt_text; ObsError])
        | Some output =>
            let line :=
              if show_delay args
              then newline ++ lit "Translated: " ++ output
                   ++ delay_info (last_index t) s
                   ++ lit " [Translation delay: " ++ fmt2f translation_delay
                   ++ lit "s]"
              else newline ++ lit "Translated: " ++ output in
            ({| last_index := last_index t + 1; tstate := TLoop |},
             [ObsRead (last_index t) text; ObsPrompt prompt_text;
              ObsPrint line])
        end
    | None => (t, [])
    end
  else ({| last_index := last_index t; tstate := TExited |}, []).

(** One turn of the loop of the translate-whisper branch (lines 224-239). *)
Definition translate_whisper (s : Service) (t : Translator)
  : Translator * list Obs :=
  if running s then
    match transcript_buffer s !! last_index t with
    | Some text =>
        let line :=
          if show_delay args
          then newline ++ lit "Translated: " ++ text
               ++ delay_info (last_index t) s
          else newline ++ lit "Translated: " ++ text in
        ({| last_index := last_index t + 1; tstate := TLoop |},
         [ObsRead (last_index t) text; ObsPrint line])
    | None => (t, [])
    end
  else ({| last_index := last_index t; tstate := TExited |}, []).

(** [translate] resumes.  In mode transcribe neither branch applies and
    the coroutine returns at once. *)
Definition translate (output : option pystr) (translation_delay : Q)
    (s : Service) (t : Translator) : Translator * list Obs :=
  match tstate t with
  | TLoop =>
      match mode args with
      | ModeTranslateLlm => translate_llm output translation_delay s t
      | ModeTranslateWhisper => translate_whisper s t
      | ModeTranscribe =>
          ({| last_index := last_index t; tstate := TExited |}, [])
      end
  | _ => (t, [])
  end.

(** *** The two tasks, the capture thread and the signal handler *)

Definition with_svc (s : Service) (w : World) : World :=
  {| svc := s; tpc := tpc w; trl := trl w |}.

(** An exception reaches [main] (through [asyncio.gather], or out of the
    signal handler): the program goes down, the tasks still alive are
    cancelled where they are suspended. *)
Definition abort (s : Service) (w : World) : World :=
  {| svc := s; tpc := Finished;
     trl := match tstate (trl w) with
            | TLoop => {| last_index := last_index (trl w); tstate := TFailed |}
            | _ => trl w
            end |}.

(** The loop of [transcribe_audio] resumes at its head. *)
Definition transcriber_tick (now : Q) (early late : list Frame) (w : World)
  : World * list Obs :=
  match tpc w with
  | AtLoopHead =>
      let '(s, pc, obs) := loop_head now early late (svc w) in
      ({| svc := s; tpc := pc; trl := trl w |}, obs)
  | _ => (w, [])
  end.

(** One event.  An event that cannot happen in the state at hand leaves
    it as it is: PyAudio calls back only while the stream is active;
    [translate] runs on the event loop, which [transcribe_audio] holds
    from the drain to the end of the cycle; [start_transcription] runs
    once, on the service as [__init__] left it (no PyAudio instance, no
    stream), and it does not look at the running flag.  The capture
    thread and the signal handler can run at any point; an exception of
    the handler is raised in the main thread, where the code running at
    that moment gets it.  An exception of the callback (a buffer of odd
    size, which a paInt16 stream does not deliver) stays in the capture
    thread.  What [main] does after [asyncio.gather] has returned or
    raised (lines 448-457) is outside the model. *)
Definition step (ev : Event) (w : World) : World * list Obs :=
  match ev with
  | EvFrame in_data =>
      match stream (svc w) with
      | Some StreamActive =>
          match audio_callback in_data (svc w) with
          | (s, Returned) => (with_svc s w, [])
          | (s, Raised) => (with_svc s w, [ObsError])
          end
      | _ => (w, [])
      end
  | EvSignal =>
      match handle_exit (svc w) with
      | (s, Returned) => (with_svc s w, [])
      | (s, Raised) =>
          match tpc w with
          | InFlight _ _ _ =>
              (* raised inside [transcribe_audio]: caught at lines
                 347-349 or 358-360, the cycle is lost *)
              ({| svc := set_running false s; tpc := Finished; trl := trl w |},
               [ObsError])
          | _ => (abort s w, [ObsError])
          end
      end
  | EvTranscriberTick now => transcriber_tick now [] [] w
  | EvTranscriberTickRacing now early late => transcriber_tick now early late w
  | EvStart opened =>
      match stream (svc w), p_audio (svc w) with
      | None, None =>
          match begin_stream opened (svc w) with
          | (s, Returned) => (with_svc s w, [])
          | (s, Raised) =>
              (* lines 297-301 or 318-322: the loop is never entered *)
              ({| svc := s; tpc := Finished; trl := trl w |}, [])
          end
      | _, _ => (w, [])
      end
  | EvTranscribed result end_time =>
      match tpc w with
      | InFlight start_time _ is_trunc =>
          match result with
          | Some segments =>
              let '(s, obs) :=
                complete_cycle start_time is_trunc segments end_time (svc w) in
              ({| svc := s; tpc := AtLoopHead; trl := trl w |}, obs)
          | None =>
              let '(s, obs) := transcriber_failed (svc w) in
              ({| svc := s; tpc := Finished; trl := trl w |}, obs)
          end
      | _ => (w, [])
      end
  | EvTranslatorTick output translation_delay =>
      match tpc w with
      | InFlight _ _ _ => (w, [])
      | _ =>
          let '(t, obs) := translate output translation_delay (svc w) (trl w) in
          match tstate t with
          | TFailed =>
              (* the exception goes through [asyncio.gather] to [main];
                 the other task is cancelled in its [asyncio.sleep] *)
              ({| svc := svc w; tpc := Finished; trl := t |}, obs)
          | _ => ({| svc := svc w; tpc := tpc w; trl := t |}, obs)
          end
      end
  end.

(** A run: the events in order, with everything observed on the way. *)
Fixpoint run (evs : list Event) (w : World) : World * list Obs :=
  match evs with
  | [] => (w, [])
  | ev :: rest =>
      let '(w1, obs1) := step ev w in
      let '(w2, obs2) := run rest w1 in
      (w2, obs1 ++ obs2)
  end.

End Pipeline.

(** The program once recording has started (line 325): both tasks are at
    the head of their loops, the translator with [last_index = 0]. *)
Definition initial_world : World :=
  {| svc := started_service; tpc := AtLoopHead;
     trl := {| last_index := 0; tstate := TLoop |} |}.


(** The appends, the reads and the bursts among what was observed. *)
Fixpoint appends_of (obs : list Obs) : list (nat * pystr) :=
  match obs with
  | [] => []
  | ObsAppend i t :: r => (i, t) :: appends_of r
  | _ :: r => appends_of r
  end.

Fixpoint reads_of (obs : list Obs) : list nat :=
  match obs with
  | [] => []
  | ObsRead i _ :: r => i :: reads_of r
  | _ :: r => reads_of r
  end.

Fixpoint bursts_of (obs : list Obs) : list (list Frame) :=
  match obs with
  | [] => []
  | ObsBurst b _ :: r => b :: bursts_of r
  | _ :: r => bursts_of r
  end.

(* ===================================================================== *)
(** ** Further methods *)
(* ===================================================================== *)

(** *** update_webpage (line 249) *)

(** [s.replace(old, new)] for a pattern [old] of one character: every
    occurrence is replaced, from left to right. *)
Fixpoint replace_char (old : N) (new : pystr) (s : pystr) : pystr :=
  match s with
  | [] => []
  | c :: r =>
      if (c =? old)%N then new ++ replace_char old new r
      else c :: replace_char old new r
  end.

Definition quote : N := 34%N.
Definition backslash : N := 92%N.
Definition line_feed : N := 10%N.

(** [text.replace('"', '\\"').replace("\n", "\\n")]: a double quote
    becomes backslash and quote, then a line feed becomes backslash and
    the letter n. *)
Definition escaped_text (text : pystr) : pystr :=
  replace_char line_feed [backslash; 110%N]
    (replace_char quote [backslash; quote] text).

(** *** The bytes given to the transcriber (line 125) *)

(** [b"".join(current_buffer)], the frames of the WAV file. *)
Definition wav_frames (current_buffer : list Frame) : list byte :=
  List.concat current_buffer.

(** *** list_audio_devices (lines 68-85) *)

(** What [get_device_info_by_index] tells about a device, as far as the
    program looks at it. *)
Record DeviceInfo := {
  dev_name : pystr;
  maxInputChannels : Z;
  defaultSampleRate : Q
}.

(** The loop over [range(p.get_device_count())]: the host has the devices
    [devices], [get_device_info_by_index(i)] is [devices !! i].  Returns
    [input_devices]; the printed lines are not modelled. *)
Definition list_audio_devices (devices : list DeviceInfo) : list (nat * pystr) :=
  flat_map
    (fun i =>
       match devices !! i with
       | Some info =>
           if (0 <? maxInputChannels info)%Z then [(i, dev_name info)] else []
       | None => []
       end)
    (seq 0 (length devices)).

(** *** start_transcription, up to the start of the stream (lines 280-325) *)

(** [needle in hay] on strings. *)
Fixpoint startswith (hay needle : pystr) : bool :=
  match needle, hay with
  | [], _ => true
  | _ :: _, [] => false
  | a :: needle', b :: hay' => (a =? b)%N && startswith hay' needle'
  end.

Fixpoint contains (hay needle : pystr) : bool :=
  startswith hay needle
  || match hay with
     | [] => false
     | _ :: hay' => contains hay' needle
     end.

(** What line 283-301 make of [--device]. *)
Inductive DeviceChoice :=
| DefaultDevice            (* [device_index] stays None *)
| DeviceIndex (i : Z)      (* [input_device_index] is set *)
| DeviceNotFound.          (* the error of lines 297-301 *)

Section Start.

(** Python's [str.lower]. *)
Variable lower : pystr -> pystr.

(** Python's [int(s)]: [None] when it raises ValueError. *)
Variable parse_int : pystr -> option Z.

(** Whether [self.p_audio.open(...)] succeeds for the chosen index. *)
Variable open_ok : option Z -> bool.

(** Line 292, for the device [i]. *)
Definition device_matches (device : pystr) (info : DeviceInfo) : bool :=
  (0 <? maxInputChannels info)%Z
  && contains (lower (dev_name info)) (lower device).

(** Lines 290-295: the first device of [range(count)], from [i] on, that
    matches. *)
Fixpoint search_device (device : pystr) (i : nat) (devices : list DeviceInfo)
  : option nat :=
  match devices with
  | [] => None
  | info :: rest =>
      if device_matches device info then Some i
      else search_device device (S i) rest
  end.

(** Lines 283-301. *)
Definition choose_device (device : option pystr) (devices : list DeviceInfo)
  : DeviceChoice :=
  match device with
  | None => DefaultDevice
  | Some d =>
      if truthy d then
        match parse_int d with
        | Some i => DeviceIndex i
        | None =>
            match search_device d 0 devices with
            | Some i => DeviceIndex (Z.of_nat i)
            | None => DeviceNotFound
            end
        end
      else DefaultDevice
  end.

(** Lines 280-325: the PyAudio instance is created, the device chosen,
    the stream opened and started.  [Raised] stands for the two early
    returns, after which [transcribe_audio] is never entered. *)
Definition start_recording (device : option pystr) (devices : list DeviceInfo)
    (s : Service) : Service * Outcome :=
  begin_stream
    (match choose_device device devices with
     | DeviceNotFound => false
     | DefaultDevice => open_ok None
     | DeviceIndex i => open_ok (Some i)
     end)
    s.

End Start.

(** *** Notions for the further statements *)

(** The frames the capture thread delivers in a list of events. *)
Fixpoint frames_of (evs : list Event) : list Frame :=
  match evs with
  | [] => []
  | EvFrame in_data :: r => in_data :: frames_of r
  | EvTranscriberTickRacing _ early late :: r => early ++ late ++ frames_of r
  | _ :: r => frames_of r
  end.

(** The yielded values and the entries read among what was observed. *)
Fixpoint yields_of (obs : list Obs) : list pystr :=
  match obs with
  | [] => []
  | ObsYield t :: r => t :: yields_of r
  | _ :: r => yields_of r
  end.

Fixpoint read_entries_of (obs : list Obs) : list (nat * pystr) :=
  match obs with
  | [] => []
  | ObsRead i t :: r => (i, t) :: read_entries_of r
  | _ :: r => read_entries_of r
  end.

(** A yielded value beside the entry appended with it. *)
Definition yield_of_append (args : Args) (fmt2f : Q -> pystr)
    (y : pystr) (a : nat * pystr) : Prop :=
  if show_delay args
  then exists delay, y = text_with_delay fmt2f (snd a) delay
  else y = snd a.

(** Every Segment of the transcript has a timing entry, and the timing
    dict holds no id beyond the next one to be given. *)
Definition timed (s : Service) : Prop :=
  (forall i, i < length (transcript_buffer s) ->
             is_Some (segment_timestamps s !! i))
  /\ (forall k, is_Some (segment_timestamps s !! k) ->
                k <= length (transcript_buffer s)).

(* ===================================================================== *)
(** ** Notions used in the statements *)
(* ===================================================================== *)

(** The values of an int16 sample. *)
Definition int16 (x : Z) : Prop := (-32768 <= x <= 32767)%Z.

(** How one event may change the translator [t] into [t']: it reads at
    most the position under the cursor of [t]; the cursor moves by what
    was read while the translator goes on, and stays where it is when the
    translator ends; an ended translator does nothing. *)
Definition cursor_moved (t t' : Translator) (obs : list Obs) : Prop :=
  (reads_of obs = [] \/ reads_of obs = [last_index t])
  /\ (tstate t' = TLoop -> last_index t' = last_index t + length (reads_of obs))
  /\ (tstate t' <> TLoop -> last_index t' = last_index t)
  /\ (tstate t <> TLoop -> t' = t /\ reads_of obs = []).

(** The frame passes line 91: it decodes and is loud. *)
Definition kept_by_gate (f : Frame) : bool :=
  match frombuffer_int16 f with
  | Some samples => loud samples
  | None => false
  end.

(** What the buffer gains when the capture thread delivers [frames]: the
    frames that pass the gate, if the stream is active. *)
Definition arrived (frames : list Frame) (s : Service) : list Frame :=
  match stream s with
  | Some StreamActive => List.filter kept_by_gate frames
  | _ => []
  end.

(** The stream was opened and delivers no more: it is stopped or closed. *)
Definition stream_shut (s : Service) : bool :=
  match stream s with
  | Some StreamActive | None => false
  | Some _ => true
  end.

(** The bursts with their [is_trunc], among what was observed. *)
Fixpoint flagged_bursts_of (obs : list Obs) : list (list Frame * bool) :=
  match obs with
  | [] => []
  | ObsBurst b is_trunc :: r => (b, is_trunc) :: flagged_bursts_of r
  | _ :: r => flagged_bursts_of r
  end.

(** The lines [translate] printed, among what was observed. *)
Fixpoint prints_of (obs : list Obs) : list pystr :=
  match obs with
  | [] => []
  | ObsPrint line :: r => line :: prints_of r
  | _ :: r => prints_of r
  end.

(** The events of the capture thread, of the head of the transcription
    loop and of the start: they touch neither the transcript nor the
    translator. *)
Definition is_quiet (ev : Event) : bool :=
  match ev with
  | EvFrame _ | EvTranscriberTick _ | EvTranscriberTickRacing _ _ _
  | EvStart _ => true
  | _ => false
  end.

(** A transcriber call is under way. *)
Definition in_flight (pc : TranscriberPC) : bool :=
  match pc with InFlight _ _ _ => true | _ => false end.

(** How many cycles can still end: the one in flight, if any. *)
Definition pending (w : World) : nat := if in_flight (tpc w) then 1 else 0.

(** The stream still delivers frames. *)
Definition stream_active (s : Service) : bool :=
  match stream s with Some StreamActive => true | _ => false end.


(* ===================================================================== *)
(** ** Inputs used in the examples *)
(* ===================================================================== *)

(** A frame of [n] samples, all at the negative end of the int16 range:
    [b'\x00\x80' * n]. *)
Definition clipped_frame (n : nat) : Frame := List.concat (repeat [x00; x80] n).

(** A frame with the single sample 4096: [b'\x00\x10']. *)
Definition loud_frame : Frame := [x00; x10].

Definition console_args : Args := {| mode := ModeTranscribe; show_delay := false |}.
Definition llm_args : Args := {| mode := ModeTranslateLlm; show_delay := false |}.

(** A formatter for the examples; the delay is not shown there. *)
Definition no_digits (q : Q) : pystr := [].

(** A segment with an ASCII text and a finite no-speech probability. *)
Definition spoken (t : string) (p : Q) : WhisperSegment :=
  {| seg_text := lit t; no_speech_prob := Finite p |}.

(** A frame is kept, the loop drains it, the transcriber is called. *)
Definition cycle_in_flight : list Event :=
  [EvFrame loud_frame; EvTranscriberTick 0%Q].


(** 60 kept frames are buffered and the loop is about to drain. *)
Definition full_buffer_world : World :=
  fst (run console_args no_digits [] true
         (repeat (EvFrame loud_frame) 60) initial_world).

(** 61 kept frames, then the loop drains: the cycle in flight is truncated. *)
Definition overloaded_world : World :=
  fst (run console_args no_digits [] true
         (repeat (EvFrame loud_frame) 61 ++ [EvTranscriberTick 0%Q])
         initial_world).

(* ===================================================================== *)
(** ** Properties *)
(* ===================================================================== *)

(** *** Draining *)

(** The frames a callback keeps. *)
Lemma audio_callback_buffer (in_data : Frame) (s : Service) :
  audio_buffer (fst (audio_callback in_data s))
  = if kept_by_gate in_data then audio_buffer s ++ [in_data] else audio_buffer s.
Proof.
  unfold audio_callback, kept_by_gate.
  destruct (frombuffer_int16 in_data) as [xs |]; [| reflexivity].
  now destruct (loud xs).
Qed.

Lemma audio_callback_state (in_data : Frame) (s : Service) :
  fst (audio_callback in_data s)
  = set_audio_buffer
      (audio_buffer s ++ (if kept_by_gate in_data then [in_data] else [])) s.
Proof.
  unfold audio_callback, kept_by_gate.
  destruct (frombuffer_int16 in_data) as [xs |]; [destruct (loud xs) |];
    cbn [fst]; rewrite ?app_nil_r; try reflexivity; now destruct s.
Qed.

Lemma feed_state (frames : list Frame) (s : Service) :
  feed frames s
  = set_audio_buffer (audio_buffer s ++ List.filter kept_by_gate frames) s.
Proof.
  revert s. induction frames as [| f r IH]; intros s; cbn [feed fold_left].
  - destruct s. unfold set_audio_buffer. cbn. now rewrite app_nil_r.
  - fold (feed r (fst (audio_callback f s))). rewrite IH, audio_callback_state.
    destruct s as [ab tb rn st pa ts]. unfold set_audio_buffer. cbn.
    destruct (kept_by_gate f); cbn; now rewrite <- ?app_assoc, ?app_nil_r.
Qed.

(** The capture thread only appends to the audio buffer. *)
Lemma capture_state (frames : list Frame) (s : Service) :
  capture frames s = set_audio_buffer (audio_buffer s ++ arrived frames s) s.
Proof.
  unfold capture, arrived. destruct (stream s) as [[] |] eqn:Hst;
    rewrite ?feed_state, ?app_nil_r; try reflexivity; now destruct s.
Qed.

(** The head of the loop, with what the capture thread brought in between
    folded into the buffer that is copied: whatever arrives after the
    copy is gone with the reset. *)
Lemma loop_head_eq (now : Q) (early late : list Frame) (s : Service) :
  loop_head now early late s
  = if running s then
      if 0 <? length (audio_buffer s) then
        let is_trunc := TRUNC_AUDIO_BUFFER <? length (audio_buffer s) in
        let current_buffer :=
          if is_trunc
          then firstn TRUNC_AUDIO_BUFFER (audio_buffer s ++ arrived early s)
          else audio_buffer s ++ arrived early s in
        (set_audio_buffer [] s,
         InFlight now current_buffer is_trunc,
         [ObsBurst current_buffer is_trunc])
      else (s, AtLoopHead, [])
    else (s, Finished, []).
Proof.
  unfold loop_head. destruct (running s); [| reflexivity].
  destruct (0 <? length (audio_buffer s)); [| reflexivity].
  cbn zeta. rewrite !capture_state. now destruct s.
Qed.




(** *** The amplitude gate *)

Lemma wrap16_int16 (z : Z) : int16 (wrap16 z).
Proof.
  unfold int16, wrap16.
  pose proof (Z.mod_pos_bound (z + 32768) 65536 eq_refl). lia.
Qed.

Lemma wrap16_id (z : Z) : int16 z -> wrap16 z = z.
Proof. unfold int16, wrap16. intros H. rewrite Z.mod_small by lia. lia. Qed.

Lemma np_abs16_min : np_abs16 (-32768) = (-32768)%Z.
Proof. reflexivity. Qed.

Lemma np_abs16_abs (x : Z) : int16 x -> x <> (-32768)%Z -> np_abs16 x = Z.abs x.
Proof.
  unfold np_abs16. intros Hx Hne. apply wrap16_id. unfold int16 in *. lia.
Qed.

Lemma np_abs16_le_abs (x : Z) : int16 x -> (np_abs16 x <= Z.abs x)%Z.
Proof.
  intros Hx. destruct (Z.eq_dec x (-32768)%Z) as [-> | Hne]; [easy |].
  rewrite np_abs16_abs by assumption. lia.
Qed.

Lemma frombuffer_int16_range_upto (n : nat) :
  forall b xs, length b <= n -> frombuffer_int16 b = Some xs -> Forall int16 xs.
Proof.
  induction n as [| n IH]; intros b xs Hlen H.
  - destruct b; [| cbn in Hlen; lia]. injection H as <-. constructor.
  - destruct b as [| lo [| hi r]]; cbn in H.
    + injection H as <-. constructor.
    + discriminate.
    + destruct (frombuffer_int16 r) as [ys |] eqn:Hr; [| discriminate].
      injection H as <-. constructor.
      * apply wrap16_int16.
      * apply (IH r); [cbn in Hlen; lia | assumption].
Qed.

(** Whatever [np.frombuffer] decodes is an int16 array. *)
Lemma frombuffer_int16_range (b : list byte) (xs : list Z) :
  frombuffer_int16 b = Some xs -> Forall int16 xs.
Proof. apply (frombuffer_int16_range_upto (length b)). lia. Qed.

(** The float comparison of a threshold with a mean, on the integers. *)
Lemma threshold_ltb_mean (t : Z) (xs : list Z) :
  float_ltb (Finite (inject_Z t)) (np_mean xs)
  = match xs with
    | [] => false
    | _ :: _ => (t * Z.of_nat (length xs) <? zsum xs)%Z
    end.
Proof.
  destruct xs as [| x r]; [reflexivity |].
  unfold np_mean, float_ltb, Qltb, inject_Z.
  cbn [Qnum Qden length].
  rewrite <- Pos.of_nat_succ, Zpos_P_of_succ_nat, Nat2Z.inj_succ.
  now rewrite Z.mul_1_r.
Qed.

Lemma zsum_abs16_le (xs : list Z) :
  Forall int16 xs -> (zsum (List.map np_abs16 xs) <= zsum (List.map Z.abs xs))%Z.
Proof.
  induction 1 as [| x r Hx _ IH]; [cbn; lia |].
  cbn [List.map zsum fold_right]. fold (zsum (List.map np_abs16 r)).
  fold (zsum (List.map Z.abs r)).
  pose proof (np_abs16_le_abs x Hx). lia.
Qed.

Lemma zsum_abs16_eq (xs : list Z) :
  Forall int16 xs -> Forall (fun x => x <> (-32768)%Z) xs ->
  List.map np_abs16 xs = List.map Z.abs xs.
Proof.
  induction 1 as [| x r Hx _ IH]; intros Hne; [reflexivity |].
  inversion Hne; subst. cbn. rewrite np_abs16_abs by assumption.
  f_equal. now apply IH.
Qed.

(** A frame the gate keeps has a mean absolute magnitude above the
    threshold: no silent frame gets through. *)
Lemma loud_exceeds (xs : list Z) :
  Forall int16 xs -> loud xs = true ->
  float_ltb (Finite (inject_Z SILENCE_THRESHOLD_MEAN)) (mean_abs xs) = true.
Proof.
  intros Hr. unfold loud, mean_abs. rewrite !threshold_ltb_mean.
  pose proof (zsum_abs16_le xs Hr) as Hle.
  destruct xs as [| x r]; [easy |].
  cbn [List.map length] in *. rewrite !length_map.
  rewrite !Z.ltb_lt. lia.
Qed.

(** On frames without a sample at -32768 the gate is the comparison of the
    mean absolute magnitude with the threshold. *)
Lemma loud_unclipped (xs : list Z) :
  Forall int16 xs -> Forall (fun x => x <> (-32768)%Z) xs ->
  loud xs = float_ltb (Finite (inject_Z SILENCE_THRESHOLD_MEAN)) (mean_abs xs).
Proof.
  intros Hr Hne. unfold loud, mean_abs. now rewrite zsum_abs16_eq.
Qed.

Lemma frombuffer_clipped (n : nat) :
  frombuffer_int16 (clipped_frame n) = Some (repeat (-32768)%Z n).
Proof.
  induction n as [| n IH]; [reflexivity |].
  change (clipped_frame (S n)) with (x00 :: x80 :: clipped_frame n).
  cbn [frombuffer_int16]. rewrite IH. reflexivity.
Qed.

Lemma zsum_repeat (x : Z) (n : nat) : zsum (repeat x n) = (x * Z.of_nat n)%Z.
Proof. induction n as [| n IH]; cbn [repeat zsum fold_right]; [lia |]. fold (zsum (repeat x n)). lia. Qed.

Lemma map_repeat_const {A B} (f : A -> B) (x : A) (n : nat) :
  List.map f (repeat x n) = repeat (f x) n.
Proof. induction n as [| n IH]; cbn; [reflexivity | now rewrite IH]. Qed.

Lemma loud_clipped (n : nat) : loud (repeat (-32768)%Z n) = false.
Proof.
  unfold loud. rewrite threshold_ltb_mean, map_repeat_const, np_abs16_min.
  destruct n as [| n]; [reflexivity |].
  change (repeat (-32768)%Z (S n)) with ((-32768)%Z :: repeat (-32768)%Z n) at 1.
  cbv beta iota. rewrite zsum_repeat, repeat_length.
  apply Z.ltb_ge. unfold SILENCE_THRESHOLD_MEAN. lia.
Qed.

Lemma mean_abs_clipped (n : nat) :
  float_ltb (Finite (inject_Z SILENCE_THRESHOLD_MEAN))
            (mean_abs (repeat (-32768)%Z (S n))) = true.
Proof.
  unfold mean_abs. rewrite threshold_ltb_mean, map_repeat_const.
  change (repeat (Z.abs (-32768)) (S n))
    with (Z.abs (-32768) :: repeat (Z.abs (-32768)) n) at 1.
  cbv beta iota. rewrite zsum_repeat, repeat_length.
  apply Z.ltb_lt. unfold SILENCE_THRESHOLD_MEAN. lia.
Qed.

(** C6: the gate compares the mean of the int16 absolute values with the
    threshold, and the int16 absolute value of -32768 is -32768.  A frame
    of [n + 1] samples at -32768 (for [n + 1 = CHUNK], what the device
    delivers when the input is clipped at the negative rail) has the mean
    absolute magnitude 32768, above the threshold 300, and is dropped all
    the same: the buffer is left as it was. *)
Theorem clipped_frame_dropped (n : nat) (s : Service) :
  frombuffer_int16 (clipped_frame (S n)) = Some (repeat (-32768)%Z (S n))
  /\ float_ltb (Finite (inject_Z SILENCE_THRESHOLD_MEAN))
               (mean_abs (repeat (-32768)%Z (S n))) = true
  /\ audio_callback (clipped_frame (S n)) s = (s, Returned).
Proof.
  split; [apply frombuffer_clipped |].
  split; [apply mean_abs_clipped |].
  unfold audio_callback. now rewrite frombuffer_clipped, loud_clipped.
Qed.

(** *** One drain cycle *)

Section Cycle.

Variable args : Args.
Variable fmt2f : Q -> pystr.

(** What a cycle does to the transcript, in one equation: the text of the
    cycle is appended when it has a character that is not white space,
    and nothing else touches the transcript. *)
Lemma complete_cycle_transcript start_time is_trunc segments end_time s :
  transcript_buffer
    (fst (complete_cycle args fmt2f start_time is_trunc segments end_time s))
  = transcript_buffer s
    ++ (if truthy (strip (cycle_text is_trunc segments))
        then [cycle_text is_trunc segments] else []).
Proof.
  unfold complete_cycle.
  destruct (truthy (strip (cycle_text is_trunc segments))); cbn.
  - reflexivity.
  - now rewrite app_nil_r.
Qed.

(** What a cycle lets be observed depends on the state only through the
    length of the transcript. *)
Lemma complete_cycle_obs start_time is_trunc segments end_time s s' :
  length (transcript_buffer s) = length (transcript_buffer s') ->
  snd (complete_cycle args fmt2f start_time is_trunc segments end_time s)
  = snd (complete_cycle args fmt2f start_time is_trunc segments end_time s').
Proof.
  intros Hlen. unfold complete_cycle. rewrite Hlen.
  now destruct (truthy (strip (cycle_text is_trunc segments))).
Qed.

Lemma complete_cycle_running start_time is_trunc segments end_time s :
  running (fst (complete_cycle args fmt2f start_time is_trunc segments end_time s))
  = running s.
Proof.
  unfold complete_cycle.
  now destruct (truthy (strip (cycle_text is_trunc segments))).
Qed.

(** The observations of a cycle: an append under the id computed from
    the length of the transcript, then the yield; or nothing. *)
Lemma complete_cycle_appends start_time is_trunc segments end_time s :
  appends_of
    (snd (complete_cycle args fmt2f start_time is_trunc segments end_time s))
  = if truthy (strip (cycle_text is_trunc segments))
    then [(length (transcript_buffer s), cycle_text is_trunc segments)]
    else [].
Proof.
  unfold complete_cycle.
  now destruct (truthy (strip (cycle_text is_trunc segments))).
Qed.

End Cycle.

(** C2, as amended: in a drain cycle whose burst was not truncated and
    whose surviving text is empty after trimming, nothing is appended and
    nothing is yielded; the transcript keeps its length, and a later cycle
    is observed exactly as if this one had not happened, position
    included. *)
Theorem blank_cycle_appends_nothing
    (args : Args) (fmt2f : Q -> pystr)
    (start_time end_time : Q) (segments : list WhisperSegment) (s : Service) :
  truthy (strip (join (lit " ") (kept_texts segments))) = false ->
  let s' := fst (complete_cycle args fmt2f start_time false segments end_time s) in
  transcript_buffer s' = transcript_buffer s
  /\ snd (complete_cycle args fmt2f start_time false segments end_time s) = []
  /\ forall start_time' is_trunc' segments' end_time',
       snd (complete_cycle args fmt2f start_time' is_trunc' segments' end_time' s')
       = snd (complete_cycle args fmt2f start_time' is_trunc' segments' end_time' s).
Proof.
  intros Hblank s'.
  assert (Htb : transcript_buffer s' = transcript_buffer s).
  { subst s'. rewrite complete_cycle_transcript. cbn [cycle_text].
    rewrite Hblank. apply app_nil_r. }
  split; [exact Htb |]. split.
  - unfold complete_cycle. cbn [cycle_text]. now rewrite Hblank.
  - intros. apply complete_cycle_obs. now rewrite Htb.
Qed.

(** A cycle whose only segment is two blanks, from the fresh service. *)
Lemma blank_cycle_appends_nothing_witness :
  transcript_buffer
    (fst (complete_cycle console_args no_digits 0%Q false
            [{| seg_text := lit "  "; no_speech_prob := Finite (1 # 10) |}]
            1%Q init_service))
  = [].
Proof.
  apply (blank_cycle_appends_nothing console_args no_digits 0%Q 1%Q
           [{| seg_text := lit "  "; no_speech_prob := Finite (1 # 10) |}]
           init_service).
  reflexivity.
Defined.

(** C2 as stated fails on a truncated burst: 61 frames are buffered, the
    drain cuts them to 60, the transcriber returns no segment, so the
    surviving text is empty; the marker is added before the test of line
    176 and the transcript grows by the entry [" (truncated)"]. *)
Lemma empty_truncated_cycle_appended :
  let w' := fst (step console_args no_digits [] true
                   (EvTranscribed (Some []) 1%Q) overloaded_world) in
  strip (join (lit " ") (kept_texts [])) = []
  /\ transcript_buffer (svc overloaded_world) = []
  /\ transcript_buffer (svc w') = [lit " (truncated)"]
  /\ length (transcript_buffer (svc w'))
     <> length (transcript_buffer (svc overloaded_world)).
Proof. vm_compute. repeat split; discriminate. Qed.

(** The loop of lines 144-148 keeps the segments below the threshold, in
    their order, and only those. *)
Lemma kept_texts_filter (segments : list WhisperSegment) :
  kept_texts segments
  = List.map seg_text
      (List.filter (fun sg => float_ltb (no_speech_prob sg) (Finite (1 # 2)))
                   segments).
Proof.
  induction segments as [| sg r IH]; [reflexivity |].
  cbn [kept_texts List.filter].
  destruct (float_ltb (no_speech_prob sg) (Finite (1 # 2))); cbn [List.map];
    now rewrite IH.
Qed.

(** C7, as amended: the sub-segments kept are exactly those whose no-speech
    probability is below 0.5; the text of the cycle is their texts joined
    with single spaces, followed by [" (truncated)"] when the burst was
    truncated; that text is what is appended, when it is not blank.  For a
    burst that was not truncated and two sub-segments with probabilities
    0.2 and 0.7, the text is the text of the first alone. *)
Theorem cycle_text_joins_confident_segments
    (args : Args) (fmt2f : Q -> pystr)
    (start_time end_time : Q) (is_trunc : bool)
    (segments : list WhisperSegment) (s : Service) :
  let confident :=
    List.filter (fun sg => float_ltb (no_speech_prob sg) (Finite (1 # 2)))
                segments in
  let text :=
    join (lit " ") (List.map seg_text confident)
    ++ (if is_trunc then lit " (truncated)" else []) in
  cycle_text is_trunc segments = text
  /\ transcript_buffer
       (fst (complete_cycle args fmt2f start_time is_trunc segments end_time s))
     = transcript_buffer s ++ (if truthy (strip text) then [text] else [])
  /\ forall first second : pystr,
       cycle_text false
         [{| seg_text := first; no_speech_prob := Finite (1 # 5) |};
          {| seg_text := second; no_speech_prob := Finite (7 # 10) |}]
       = first.
Proof.
  intros confident text.
  assert (Htext : cycle_text is_trunc segments = text).
  { unfold cycle_text, text, confident. rewrite kept_texts_filter.
    destruct is_trunc; [reflexivity | now rewrite app_nil_r]. }
  split; [exact Htext |]. split.
  - now rewrite complete_cycle_transcript, Htext.
  - reflexivity.
Qed.

(** C7 as stated fails on a truncated burst: with sub-segments ["a"] at
    0.2 and ["b"] at 0.7 the entry appended is ["a (truncated)"], which is
    not the text of the first sub-segment. *)
Lemma truncated_cycle_text_marked :
  let segments :=
    [{| seg_text := lit "a"; no_speech_prob := Finite (1 # 5) |};
     {| seg_text := lit "b"; no_speech_prob := Finite (7 # 10) |}] in
  let w' := fst (step console_args no_digits [] true
                   (EvTranscribed (Some segments) 1%Q) overloaded_world) in
  transcript_buffer (svc overloaded_world) = []
  /\ transcript_buffer (svc w') = [lit "a (truncated)"]
  /\ transcript_buffer (svc w') <> [lit "a"]
  /\ transcript_buffer (svc w') <> [join (lit " ") [lit "a"]].
Proof. vm_compute. repeat split; discriminate. Qed.

(** *** Runs *)

Section Runs.

Variable args : Args.
Variable fmt2f : Q -> pystr.
Variable prompt : pystr.
Variable closed_stream_raises : bool.

Local Abbreviation step' := (step args fmt2f prompt closed_stream_raises).
Local Abbreviation run' := (run args fmt2f prompt closed_stream_raises).

Lemma run_cons ev evs w :
  run' (ev :: evs) w
  = (fst (run' evs (fst (step' ev w))),
     snd (step' ev w) ++ snd (run' evs (fst (step' ev w)))).
Proof.
  cbn [run]. destruct (step' ev w) as [w1 o1]. cbn [fst snd].
  now destruct (run' evs w1) as [w2 o2].
Qed.

(** **** What each method leaves alone *)

Lemma audio_callback_keeps in_data s :
  let s' := fst (audio_callback in_data s) in
  transcript_buffer s' = transcript_buffer s /\ running s' = running s
  /\ stream s' = stream s /\ p_audio s' = p_audio s.
Proof.
  unfold audio_callback.
  destruct (frombuffer_int16 in_data) as [xs |]; [| easy].
  now destruct (loud xs).
Qed.

Lemma handle_exit_keeps s :
  let s' := fst (handle_exit closed_stream_raises s) in
  transcript_buffer s' = transcript_buffer s /\ running s' = false
  /\ audio_buffer s' = audio_buffer s.
Proof.
  unfold handle_exit, terminate_p_audio, is_active. cbn.
  destruct (stream s) as [[] |], (p_audio s), closed_stream_raises; easy.
Qed.

Lemma loop_head_keeps now early late s :
  let '(s', pc, obs) := loop_head now early late s in
  transcript_buffer s' = transcript_buffer s /\ running s' = running s
  /\ appends_of obs = [] /\ reads_of obs = []
  /\ (running s = false -> pc = Finished).
Proof.
  rewrite loop_head_eq. destruct (running s) eqn:Hrun; [| easy].
  now destruct (0 <? length (audio_buffer s)).
Qed.

(** The events of the capture thread, the head of the loop and the start
    leave the transcript, the timings and the translator alone, and none
    of them sets the running flag or puts a cycle in flight on a stopped
    service. *)
Lemma step_quiet ev w :
  is_quiet ev = true ->
  let r := step' ev w in
  trl (fst r) = trl w
  /\ transcript_buffer (svc (fst r)) = transcript_buffer (svc w)
  /\ segment_timestamps (svc (fst r)) = segment_timestamps (svc w)
  /\ appends_of (snd r) = [] /\ reads_of (snd r) = []
  /\ yields_of (snd r) = [] /\ read_entries_of (snd r) = []
  /\ prints_of (snd r) = []
  /\ (running (svc w) = false ->
      running (svc (fst r)) = false /\ pending (fst r) <= pending w).
Proof.
  assert (Htick : forall now early late,
    let r := transcriber_tick now early late w in
    trl (fst r) = trl w
    /\ transcript_buffer (svc (fst r)) = transcript_buffer (svc w)
    /\ segment_timestamps (svc (fst r)) = segment_timestamps (svc w)
    /\ appends_of (snd r) = [] /\ reads_of (snd r) = []
    /\ yields_of (snd r) = [] /\ read_entries_of (snd r) = []
    /\ prints_of (snd r) = []
    /\ (running (svc w) = false ->
        running (svc (fst r)) = false /\ pending (fst r) <= pending w)).
  { intros now early late. unfold transcriber_tick, pending.
    destruct (tpc w) eqn:Hpc; cbn zeta;
      [rewrite loop_head_eq; destruct (running (svc w)) eqn:Hrun;
       [destruct (0 <? length (audio_buffer (svc w))) |] | |];
      cbn; rewrite ?Hpc; cbn; repeat split; auto; try discriminate; lia. }
  destruct ev as [in_data | | now | result end_time | output d
                 | now early late | opened];
    try discriminate; intros _; cbn [step]; try apply Htick.
  - unfold pending.
    destruct (stream (svc w)) as [[] |]; cbn zeta;
      try (cbn; repeat split; auto; lia).
    pose proof (audio_callback_state in_data (svc w)) as Hs.
    destruct (audio_callback in_data (svc w)) as [s' []]; cbn in Hs; subst s';
      cbn; repeat split; auto; lia.
  - unfold pending, begin_stream.
    destruct (stream (svc w)), (p_audio (svc w)); cbn zeta;
      try (cbn; repeat split; auto; lia).
    destruct opened; cbn; repeat split; auto; try discriminate;
      destruct (in_flight (tpc w)); lia.
Qed.

Lemma complete_cycle_reads start_time is_trunc segments end_time s :
  reads_of (snd (complete_cycle args fmt2f start_time is_trunc segments end_time s))
  = [].
Proof.
  unfold complete_cycle.
  now destruct (truthy (strip (cycle_text is_trunc segments))).
Qed.

(** [translate] reads at most the entry under its cursor, and moves the
    cursor past it exactly when the turn ends normally. *)
Lemma translate_cursor output translation_delay s t :
  let '(t', obs) := translate args fmt2f prompt output translation_delay s t in
  appends_of obs = []
  /\ (reads_of obs = [] \/ reads_of obs = [last_index t])
  /\ (tstate t' = TLoop ->
      last_index t' = last_index t + length (reads_of obs))
  /\ (tstate t' <> TLoop -> last_index t' = last_index t)
  /\ (tstate t <> TLoop -> t' = t /\ obs = []).
Proof.
  unfold translate, translate_llm, translate_whisper.
  destruct t as [i []]; cbn [tstate last_index].
  - destruct (mode args), (running s), (transcript_buffer s !! i), output;
      cbn; repeat split; auto; try easy; lia.
  - repeat split; auto; easy.
  - repeat split; auto; easy.
Qed.

Lemma appends_of_app o1 o2 : appends_of (o1 ++ o2) = appends_of o1 ++ appends_of o2.
Proof.
  induction o1 as [| o r IH]; [reflexivity |].
  destruct o; cbn; now rewrite ?IH.
Qed.

Lemma reads_of_app o1 o2 : reads_of (o1 ++ o2) = reads_of o1 ++ reads_of o2.
Proof.
  induction o1 as [| o r IH]; [reflexivity |].
  destruct o; cbn; now rewrite ?IH.
Qed.

(** **** One event and the transcript *)

(** Whatever happens, the transcript only grows at its end, by what the
    append observations carry, under consecutive ids starting at its
    length. *)
Lemma step_log ev w :
  let log := transcript_buffer (svc w) in
  let news := appends_of (snd (step' ev w)) in
  transcript_buffer (svc (fst (step' ev w))) = log ++ List.map snd news
  /\ List.map fst news = seq (length log) (length news).
Proof.
  destruct (is_quiet ev) eqn:Hq.
  { destruct (step_quiet ev w Hq) as (_ & Ht & _ & Ha & _). cbn zeta in *.
    rewrite Ht, Ha. cbn. now rewrite app_nil_r. }
  destruct ev as [in_data | | now | result end_time | output d
                 | now early late | opened];
    try discriminate Hq; cbn [step].
  - pose proof (handle_exit_keeps (svc w)) as (Ht & _).
    destruct (handle_exit closed_stream_raises (svc w)) as [s' []];
      [| destruct (tpc w)]; cbn in *; now rewrite app_nil_r.
  - destruct (tpc w) as [| start_time cur is_trunc |]; cbn;
      rewrite ?app_nil_r; try easy.
    destruct result as [segments |]; cbn; [| now rewrite app_nil_r].
    pose proof (complete_cycle_transcript args fmt2f start_time is_trunc
                  segments end_time (svc w)) as Ht.
    pose proof (complete_cycle_appends args fmt2f start_time is_trunc
                  segments end_time (svc w)) as Ha.
    destruct (complete_cycle args fmt2f start_time is_trunc segments
                end_time (svc w)) as [s' obs].
    cbn in *. rewrite Ht, Ha.
    now destruct (truthy (strip (cycle_text is_trunc segments))).
  - assert (Hno : appends_of
              (snd (translate args fmt2f prompt output d (svc w) (trl w))) = []).
    { pose proof (translate_cursor output d (svc w) (trl w)) as H.
      destruct (translate args fmt2f prompt output d (svc w) (trl w)).
      apply H. }
    destruct (tpc w); cbn; rewrite ?app_nil_r; try easy;
      destruct (translate args fmt2f prompt output d (svc w) (trl w))
        as [t' obs]; cbn in Hno;
      destruct (tstate t'); cbn; rewrite Hno; cbn; now rewrite app_nil_r.
Qed.

Lemma run_log evs : forall w,
  let log := transcript_buffer (svc w) in
  let news := appends_of (snd (run' evs w)) in
  transcript_buffer (svc (fst (run' evs w))) = log ++ List.map snd news
  /\ List.map fst news = seq (length log) (length news).
Proof.
  induction evs as [| ev evs IH]; intros w; cbn zeta.
  - cbn. now rewrite app_nil_r.
  - rewrite run_cons. cbn [fst snd].
    destruct (step_log ev w) as (Hs1 & Hs2).
    destruct (IH (fst (step' ev w))) as (Hr1 & Hr2). cbn zeta in *.
    rewrite appends_of_app, !map_app, length_app.
    rewrite Hr1, Hs1, Hr2, Hs2, Hs1, length_app, !length_map.
    split; [now rewrite app_assoc |].
    now rewrite seq_app.
Qed.

(** **** One event and the cursor of the translator *)

Lemma cursor_unmoved t obs : reads_of obs = [] -> cursor_moved t t obs.
Proof. intros H. unfold cursor_moved. rewrite H. cbn. repeat split; auto; lia. Qed.

Lemma step_cursor ev w :
  cursor_moved (trl w) (trl (fst (step' ev w))) (snd (step' ev w)).
Proof.
  destruct (is_quiet ev) eqn:Hq.
  { destruct (step_quiet ev w Hq) as (Ht & _ & _ & _ & Hr & _). cbn zeta in *.
    rewrite Ht. now apply cursor_unmoved. }
  destruct ev as [in_data | | now | result end_time | output d
                 | now early late | opened];
    try discriminate Hq; cbn [step].
  - destruct (handle_exit closed_stream_raises (svc w)) as [s' []];
      [now apply cursor_unmoved |].
    destruct (tpc w); [| now apply cursor_unmoved |];
      unfold cursor_moved; cbn;
      destruct (trl w) as [i []]; cbn; repeat split; auto; try easy; lia.
  - destruct (tpc w) as [| start_time cur is_trunc |];
      try now apply cursor_unmoved.
    destruct result as [segments |]; [| now apply cursor_unmoved].
    pose proof (complete_cycle_reads start_time is_trunc segments end_time
                  (svc w)) as H.
    destruct (complete_cycle args fmt2f start_time is_trunc segments
                end_time (svc w)) as [s' obs].
    now apply cursor_unmoved.
  - destruct (tpc w); try now apply cursor_unmoved.
    all: pose proof (translate_cursor output d (svc w) (trl w)) as H;
      destruct (translate args fmt2f prompt output d (svc w) (trl w))
        as [t' obs];
      destruct H as (_ & H1 & H2 & H3 & H4);
      assert (Hc : cursor_moved (trl w) t' obs)
        by (unfold cursor_moved; split; [exact H1 |]; split; [exact H2 |];
            split; [exact H3 |]; intros Hd;
            destruct (H4 Hd) as [-> ->]; split; reflexivity);
      destruct (tstate t'); exact Hc.
Qed.

(** Over a run the translator reads consecutive positions, starting at
    its cursor; the cursor ends behind the last one read, or on it when
    the translator has ended there; once ended it reads nothing more. *)
Lemma run_cursor evs : forall w,
  let t := trl w in
  let t' := trl (fst (run' evs w)) in
  let reads := reads_of (snd (run' evs w)) in
  reads = seq (last_index t) (length reads)
  /\ last_index t <= last_index t'
  /\ (tstate t' = TLoop -> last_index t' = last_index t + length reads)
  /\ (tstate t <> TLoop -> t' = t /\ reads = []).
Proof.
  induction evs as [| ev evs IH]; intros w; cbn zeta.
  - cbn. repeat split; auto; lia.
  - rewrite run_cons. cbn [fst snd].
    destruct (step_cursor ev w) as (Hs1 & Hs2 & Hs3 & Hs4).
    destruct (IH (fst (step' ev w))) as (Hr1 & Hr2 & Hr3 & Hr4).
    cbn zeta in *.
    set (w1 := fst (step' ev w)) in *.
    set (o1 := snd (step' ev w)) in *.
    set (r2 := run' evs w1) in *.
    rewrite reads_of_app, length_app.
    assert (Hseq1 : reads_of o1 = seq (last_index (trl w)) (length (reads_of o1)))
      by (destruct Hs1 as [-> | ->]; reflexivity).
    assert (Hlen1 : length (reads_of o1) <= 1)
      by (destruct Hs1 as [-> | ->]; cbn; lia).
    assert (Hdec : tstate (trl w1) = TLoop \/ tstate (trl w1) <> TLoop)
      by (destruct (tstate (trl w1)); auto; right; discriminate).
    destruct Hdec as [Hl | Hd].
    + specialize (Hs2 Hl).
      split; [| split; [| split]].
      * rewrite seq_app, <- Hseq1, <- Hs2. now f_equal.
      * lia.
      * intros Hl'. rewrite (Hr3 Hl'). lia.
      * intros Hd0. destruct (Hs4 Hd0) as [Ht1 Ho1].
        rewrite Ht1 in Hl. contradiction.
    + destruct (Hr4 Hd) as [Ht2 Ho2]. specialize (Hs3 Hd).
      rewrite Ho2, app_nil_r, Nat.add_0_r. rewrite Ht2.
      split; [| split; [| split]].
      * exact Hseq1.
      * lia.
      * intros Hl. contradiction.
      * intros Hd0. destruct (Hs4 Hd0) as [Ht1 Ho1]. now rewrite Ht1.
Qed.

(** **** After shutdown *)

Lemma step_stopped ev w :
  running (svc w) = false ->
  running (svc (fst (step' ev w))) = false
  /\ length (appends_of (snd (step' ev w))) + pending (fst (step' ev w))
     <= pending w.
Proof.
  intros Hoff. unfold pending.
  destruct (is_quiet ev) eqn:Hq.
  { destruct (step_quiet ev w Hq) as (_ & _ & _ & Ha & _ & _ & _ & _ & Hs).
    cbn zeta in *. destruct (Hs Hoff) as [Hr Hp]. unfold pending in Hp.
    rewrite Ha. cbn. split; [assumption | lia]. }
  destruct ev as [in_data | | now | result end_time | output d
                 | now early late | opened];
    try discriminate Hq; cbn [step].
  - pose proof (handle_exit_keeps (svc w)) as (_ & Hr & _).
    destruct (handle_exit closed_stream_raises (svc w)) as [s' []];
      destruct (tpc w) eqn:Hpc; cbn in *; rewrite ?Hpc; cbn;
      (split; [easy | lia]).
  - destruct (tpc w) as [| start_time cur is_trunc |] eqn:Hpc; cbn;
      rewrite ?Hpc; cbn; try (split; [assumption | lia]).
    destruct result as [segments |]; cbn; [| split; [reflexivity | lia]].
    pose proof (complete_cycle_running args fmt2f start_time is_trunc
                  segments end_time (svc w)) as Hr.
    pose proof (complete_cycle_appends args fmt2f start_time is_trunc
                  segments end_time (svc w)) as Ha.
    destruct (complete_cycle args fmt2f start_time is_trunc segments
                end_time (svc w)) as [s' obs].
    cbn in *. rewrite Hr, Ha. split; [assumption |].
    destruct (truthy (strip (cycle_text is_trunc segments))); cbn; lia.
  - pose proof (translate_cursor output d (svc w) (trl w)) as H.
    destruct (translate args fmt2f prompt output d (svc w) (trl w))
      as [t' obs].
    destruct H as (Ha & _).
    destruct (tpc w) eqn:Hpc; cbn; rewrite ?Hpc; cbn;
      try (split; [assumption | lia]);
      destruct (tstate t'); cbn; rewrite ?Hpc, Ha; cbn;
      (split; [assumption | lia]).
Qed.

Lemma run_stopped evs : forall w,
  running (svc w) = false ->
  running (svc (fst (run' evs w))) = false
  /\ length (appends_of (snd (run' evs w))) <= pending w.
Proof.
  induction evs as [| ev evs IH]; intros w Hoff.
  - cbn. split; [assumption | lia].
  - rewrite run_cons. cbn [fst snd].
    destruct (step_stopped ev w Hoff) as (Hr1 & Hb1).
    destruct (IH _ Hr1) as (Hr2 & Hb2).
    split; [assumption |].
    rewrite appends_of_app, length_app. lia.
Qed.

(** **** An ended translator prints nothing *)

Lemma prints_of_app o1 o2 : prints_of (o1 ++ o2) = prints_of o1 ++ prints_of o2.
Proof.
  induction o1 as [| o r IH]; [reflexivity |].
  destruct o; cbn; now rewrite ?IH.
Qed.

Lemma complete_cycle_prints start_time is_trunc segments end_time s :
  prints_of (snd (complete_cycle args fmt2f start_time is_trunc segments end_time s))
  = [].
Proof.
  unfold complete_cycle.
  now destruct (truthy (strip (cycle_text is_trunc segments))).
Qed.

Lemma step_prints_ended ev w :
  tstate (trl w) <> TLoop -> prints_of (snd (step' ev w)) = [].
Proof.
  intros Hd. destruct (is_quiet ev) eqn:Hq.
  { now destruct (step_quiet ev w Hq) as (_ & _ & _ & _ & _ & _ & _ & Hp & _). }
  destruct ev as [in_data | | now | result end_time | output d
                 | now early late | opened];
    try discriminate Hq; cbn [step].
  - destruct (handle_exit closed_stream_raises (svc w)) as [s' []];
      [| destruct (tpc w)]; reflexivity.
  - destruct (tpc w) as [| start_time cur is_trunc |]; try reflexivity.
    destruct result as [segments |]; [| reflexivity].
    pose proof (complete_cycle_prints start_time is_trunc segments end_time
                  (svc w)) as H.
    now destruct (complete_cycle args fmt2f start_time is_trunc segments
                    end_time (svc w)).
  - pose proof (translate_cursor output d (svc w) (trl w)) as H.
    destruct (translate args fmt2f prompt output d (svc w) (trl w)) as [t' obs].
    destruct H as (_ & _ & _ & _ & H4). destruct (H4 Hd) as [-> ->].
    destruct (tpc w); try reflexivity; now destruct (tstate (trl w)).
Qed.

Lemma run_prints_ended evs : forall w,
  tstate (trl w) <> TLoop -> prints_of (snd (run' evs w)) = [].
Proof.
  induction evs as [| ev evs IH]; intros w Hd; [reflexivity |].
  rewrite run_cons. cbn [snd]. rewrite prints_of_app, (step_prints_ended ev w Hd).
  apply IH. destruct (step_cursor ev w) as (_ & _ & _ & H4).
  destruct (H4 Hd) as [-> _]. exact Hd.
Qed.

End Runs.

(** *** The transcript log *)

(** C8: over any run the transcript only grows at its end.  The appends
    observed carry the ids [length log], [length log + 1], ... in this
    order, one each, and the transcript after the run is the one before
    followed by the appended texts in that order: the entry appended
    under id [i] sits at index [i], no id is skipped or used twice, and
    what was in the transcript is still there, unchanged. *)
Theorem transcript_positions_consecutive
    (args : Args) (fmt2f : Q -> pystr) (prompt : pystr)
    (closed_stream_raises : bool) (evs : list Event) (w : World) :
  let log := transcript_buffer (svc w) in
  let r := run args fmt2f prompt closed_stream_raises evs w in
  let log' := transcript_buffer (svc (fst r)) in
  let news := appends_of (snd r) in
  log' = log ++ List.map snd news
  /\ List.map fst news = seq (length log) (length news)
  /\ firstn (length log) log' = log
  /\ NoDup (List.map fst news).
Proof.
  cbn zeta.
  destruct (run_log args fmt2f prompt closed_stream_raises evs w) as (H1 & H2).
  cbn zeta in *. split; [exact H1 |]. split; [exact H2 |]. split.
  - rewrite H1. now rewrite take_app_length.
  - rewrite H2. apply NoDup_seq.
Qed.

(** *** The cursor of the translator *)

(** C9: over any run the positions the translator reads are
    [last_index], [last_index + 1], ... in this order, so none is read
    twice, and its cursor never decreases. *)
Theorem translator_cursor_monotone
    (args : Args) (fmt2f : Q -> pystr) (prompt : pystr)
    (closed_stream_raises : bool) (evs : list Event) (w : World) :
  let r := run args fmt2f prompt closed_stream_raises evs w in
  let reads := reads_of (snd r) in
  reads = seq (last_index (trl w)) (length reads)
  /\ NoDup reads
  /\ last_index (trl w) <= last_index (trl (fst r)).
Proof.
  cbn zeta.
  destruct (run_cursor args fmt2f prompt closed_stream_raises evs w)
    as (H1 & H2 & _).
  cbn zeta in *. split; [exact H1 |]. split; [| exact H2].
  rewrite H1. apply NoDup_seq.
Qed.

(** *** Shutdown *)




(** C4, as amended: [translate] does not guard the call of the model.
    When the call raises for the Segment under the cursor, the exception
    leaves the translator, which ends there: nothing is printed for the
    Segment, the cursor is not advanced, and the consumer does not keep
    running.  Having ended it reads no position and prints nothing any
    more, so the failing Segment is not processed a second time. *)
Theorem failed_translation_ends_translator
    (fmt2f : Q -> pystr) (prompt : pystr) (closed_stream_raises : bool)
    (show : bool) (translation_delay : Q) (evs : list Event) (w : World) :
  let args := {| mode := ModeTranslateLlm; show_delay := show |} in
  running (svc w) = true ->
  tstate (trl w) = TLoop ->
  in_flight (tpc w) = false ->
  last_index (trl w) < length (transcript_buffer (svc w)) ->
  let r1 := step args fmt2f prompt closed_stream_raises
              (EvTranslatorTick None translation_delay) w in
  let r2 := run args fmt2f prompt closed_stream_raises evs (fst r1) in
  tstate (trl (fst r1)) = TFailed
  /\ last_index (trl (fst r1)) = last_index (trl w)
  /\ reads_of (snd r1) = [last_index (trl w)]
  /\ prints_of (snd r1) = []
  /\ trl (fst r2) = trl (fst r1)
  /\ reads_of (snd r2) = []
  /\ prints_of (snd r2) = [].
Proof.
  intros args Hrun Hloop Hidle Hlt r1 r2.
  assert (Hr1 : trl (fst r1) = {| last_index := last_index (trl w); tstate := TFailed |}
                /\ reads_of (snd r1) = [last_index (trl w)]
                /\ prints_of (snd r1) = []).
  { subst r1. cbn [step].
    assert (Ht : exists obs,
               translate args fmt2f prompt None translation_delay (svc w) (trl w)
               = ({| last_index := last_index (trl w); tstate := TFailed |}, obs)
               /\ reads_of obs = [last_index (trl w)]
               /\ prints_of obs = []).
    { subst args. unfold translate, translate_llm. rewrite Hloop.
      cbn [mode]. rewrite Hrun.
      destruct (transcript_buffer (svc w) !! last_index (trl w)) as [text |] eqn:E.
      - eexists. repeat split; reflexivity.
      - apply lookup_ge_None in E. lia. }
    destruct Ht as (obs & Ht & Hobs & Hpr).
    destruct (tpc w); [| discriminate |]; rewrite Ht; cbn; auto. }
  destruct Hr1 as (Ht1 & Ho1 & Hp1).
  destruct (run_cursor args fmt2f prompt closed_stream_raises evs (fst r1))
    as (_ & _ & _ & Hdead).
  pose proof (run_prints_ended args fmt2f prompt closed_stream_raises evs (fst r1))
    as Hquiet.
  cbn zeta in Hdead. rewrite Ht1 in Hdead, Hquiet. cbn [tstate] in Hdead, Hquiet.
  destruct (Hdead ltac:(discriminate)) as [Hd1 Hd2].
  specialize (Hquiet ltac:(discriminate)).
  subst r2. rewrite Hd1, Hd2, Ht1. cbn [tstate last_index].
  repeat split; auto.
Qed.

(** One Segment is in the transcript and the model raises on it; later
    the translator is resumed twice with a model that would answer. *)
Lemma failed_translation_ends_translator_witness :
  let w := fst (run llm_args no_digits [] true
                  (cycle_in_flight
                   ++ [EvTranscribed (Some [spoken " hi" (1 # 10)]) 1%Q])
                  initial_world) in
  let r1 := step llm_args no_digits [] true (EvTranslatorTick None 0%Q) w in
  let r2 := run llm_args no_digits [] true
              [EvTranslatorTick (Some (lit "salut")) 0%Q;
               EvTranslatorTick (Some (lit "salut")) 0%Q] (fst r1) in
  last_index (trl w) < length (transcript_buffer (svc w))
  /\ tstate (trl (fst r1)) = TFailed
  /\ last_index (trl (fst r1)) = last_index (trl w)
  /\ reads_of (snd r1) = [last_index (trl w)]
  /\ prints_of (snd r1) = []
  /\ trl (fst r2) = trl (fst r1)
  /\ reads_of (snd r2) = []
  /\ prints_of (snd r2) = [].
Proof.
  cbn zeta. split; [vm_compute; lia |].
  apply (failed_translation_ends_translator no_digits [] true false 0%Q
           [EvTranslatorTick (Some (lit "salut")) 0%Q;
            EvTranslatorTick (Some (lit "salut")) 0%Q]
           (fst (run llm_args no_digits [] true
                   (cycle_in_flight
                    ++ [EvTranscribed (Some [spoken " hi" (1 # 10)]) 1%Q])
                   initial_world))).
  - reflexivity.
  - reflexivity.
  - reflexivity.
  - vm_compute; lia.
Defined.

(** C4 as stated fails: the model raises on the Segment at position 0;
    the translator has ended, it does not keep running, and its cursor is
    still 0, not 1. *)
Lemma failed_translation_cursor_stays :
  let w := fst (run llm_args no_digits [] true
                  (cycle_in_flight
                   ++ [EvTranscribed (Some [spoken " hi" (1 # 10)]) 1%Q;
                       EvTranslatorTick None 0%Q])
                  initial_world) in
  transcript_buffer (svc w) = [lit " hi"]
  /\ trl w = {| last_index := 0; tstate := TFailed |}
  /\ tstate (trl w) <> TLoop
  /\ last_index (trl w) <> 1.
Proof. vm_compute. repeat split; discriminate. Qed.






(** *** The delay annotation *)

Lemma complete_cycle_state_indep
    (args args' : Args) (fmt2f fmt2f' : Q -> pystr)
    start_time is_trunc segments end_time s :
  fst (complete_cycle args fmt2f start_time is_trunc segments end_time s)
  = fst (complete_cycle args' fmt2f' start_time is_trunc segments end_time s).
Proof.
  unfold complete_cycle.
  now destruct (truthy (strip (cycle_text is_trunc segments))).
Qed.

Lemma translate_state_indep
    (args args' : Args) (fmt2f fmt2f' : Q -> pystr) prompt output d s t :
  mode args = mode args' ->
  fst (translate args fmt2f prompt output d s t)
  = fst (translate args' fmt2f' prompt output d s t).
Proof.
  intros Hm. unfold translate, translate_llm, translate_whisper. rewrite Hm.
  destruct (tstate t), (mode args'), (running s),
    (transcript_buffer s !! last_index t), output; reflexivity.
Qed.

Lemma step_state_indep
    (args args' : Args) (fmt2f fmt2f' : Q -> pystr) prompt r ev w :
  mode args = mode args' ->
  fst (step args fmt2f prompt r ev w) = fst (step args' fmt2f' prompt r ev w).
Proof.
  intros Hm.
  destruct ev as [in_data | | now | result end_time | output d
                 | now early late | opened]; cbn [step];
    try reflexivity.
  - destruct (tpc w) as [| start_time cur is_trunc |]; try reflexivity.
    destruct result as [segments |]; [| reflexivity].
    pose proof (complete_cycle_state_indep args args' fmt2f fmt2f' start_time
                  is_trunc segments end_time (svc w)) as H.
    destruct (complete_cycle args fmt2f start_time is_trunc segments end_time
                (svc w)), (complete_cycle args' fmt2f' start_time is_trunc
                             segments end_time (svc w)).
    cbn in *. now subst.
  - pose proof (translate_state_indep args args' fmt2f fmt2f' prompt output d
                  (svc w) (trl w) Hm) as H.
    destruct (translate args fmt2f prompt output d (svc w) (trl w)),
      (translate args' fmt2f' prompt output d (svc w) (trl w)).
    cbn in H. subst.
    destruct (tpc w); try reflexivity; now destruct (tstate _).
Qed.

Lemma run_state_indep
    (args args' : Args) (fmt2f fmt2f' : Q -> pystr) prompt r evs :
  mode args = mode args' ->
  forall w, fst (run args fmt2f prompt r evs w)
            = fst (run args' fmt2f' prompt r evs w).
Proof.
  intros Hm. induction evs as [| ev evs IH]; intros w; [reflexivity |].
  rewrite !run_cons. cbn [fst].
  now rewrite (step_state_indep args args' fmt2f fmt2f' prompt r ev w Hm), IH.
Qed.

(** C10: the entry appended is the text of the cycle; the annotation
    [" [Delay: ...s]"] is put on the yielded value only, and only with
    --show-delay.  The transcript, and with it all the translator reads,
    is the same with and without --show-delay, and whatever the formatting
    of the delay gives. *)
Theorem transcript_without_delay_annotation
    (m : Mode) (fmt2f fmt2f' : Q -> pystr) (prompt : pystr)
    (closed_stream_raises : bool) (evs : list Event) (w : World)
    (start_time end_time : Q) (is_trunc : bool)
    (segments : list WhisperSegment) (s : Service) :
  let shown := {| mode := m; show_delay := true |} in
  let plain := {| mode := m; show_delay := false |} in
  let text := cycle_text is_trunc segments in
  let annotated :=
    text ++ lit " [Delay: " ++ fmt2f (Qminus end_time start_time) ++ lit "s]" in
  snd (complete_cycle shown fmt2f start_time is_trunc segments end_time s)
  = (if truthy (strip text)
     then [ObsAppend (length (transcript_buffer s)) text; ObsYield annotated]
     else [])
  /\ transcript_buffer
       (fst (complete_cycle shown fmt2f start_time is_trunc segments end_time s))
     = transcript_buffer s ++ (if truthy (strip text) then [text] else [])
  /\ fst (run shown fmt2f prompt closed_stream_raises evs w)
     = fst (run plain fmt2f' prompt closed_stream_raises evs w).
Proof.
  cbn zeta. split; [| split].
  - unfold complete_cycle, text_with_delay. cbn [show_delay].
    now destruct (truthy (strip (cycle_text is_trunc segments))).
  - apply complete_cycle_transcript.
  - now apply run_state_indep.
Qed.

(** *** Bursts hold only frames that passed the gate *)

Lemma arrived_kept (frames : list Frame) (s : Service) :
  Forall (fun f => kept_by_gate f = true) (arrived frames s).
Proof.
  unfold arrived. destruct (stream s) as [[] |]; try constructor.
  induction frames as [| f r IH]; [constructor |].
  cbn [List.filter]. destruct (kept_by_gate f) eqn:Hk; [now constructor | exact IH].
Qed.

Lemma transcriber_tick_bursts (now : Q) (early late : list Frame) (w : World) :
  let P := fun f => kept_by_gate f = true in
  Forall P (audio_buffer (svc w)) ->
  Forall P (audio_buffer (svc (fst (transcriber_tick now early late w))))
  /\ Forall (Forall P) (bursts_of (snd (transcriber_tick now early late w))).
Proof.
  intros P Hall. unfold transcriber_tick.
  destruct (tpc w); try (split; [assumption | constructor]).
  rewrite loop_head_eq.
  destruct (running (svc w)); [| split; [assumption | constructor]].
  destruct (0 <? length (audio_buffer (svc w)));
    [| split; [assumption | constructor]].
  cbn zeta. cbn [fst snd svc audio_buffer set_audio_buffer bursts_of].
  split; [constructor |]. constructor; [| constructor].
  pose proof (arrived_kept early (svc w)) as Ha.
  destruct (TRUNC_AUDIO_BUFFER <? length (audio_buffer (svc w)));
    [apply Forall_take |]; apply Forall_app; now split.
Qed.

Lemma step_bursts
    (args : Args) (fmt2f : Q -> pystr) (prompt : pystr)
    (closed_stream_raises : bool) (ev : Event) (w : World) :
  let P := fun f => kept_by_gate f = true in
  Forall P (audio_buffer (svc w)) ->
  Forall P (audio_buffer (svc (fst (step args fmt2f prompt closed_stream_raises ev w))))
  /\ Forall (Forall P) (bursts_of (snd (step args fmt2f prompt closed_stream_raises ev w))).
Proof.
  intros P Hall.
  destruct ev as [in_data | | now | result end_time | output d
                 | now early late | opened]; cbn [step];
    try now apply transcriber_tick_bursts.
  - destruct (stream (svc w)) as [[] |]; try (split; [assumption | constructor]).
    pose proof (audio_callback_buffer in_data (svc w)) as Hb.
    destruct (audio_callback in_data (svc w)) as [s' []]; cbn in *;
      (split; [| constructor]); rewrite Hb;
      (destruct (kept_by_gate in_data) eqn:Hk; [| assumption]);
      (apply Forall_app; split; [assumption |]; now constructor).
  - pose proof (handle_exit_keeps closed_stream_raises (svc w)) as (_ & _ & Hb).
    destruct (handle_exit closed_stream_raises (svc w)) as [s' []];
      destruct (tpc w); cbn in *; rewrite ?Hb; (split; [assumption | constructor]).
  - destruct (tpc w) as [| start_time cur is_trunc |]; cbn;
      try (split; [assumption | constructor]).
    destruct result as [segments |]; cbn; [| split; [assumption | constructor]].
    unfold complete_cycle.
    destruct (truthy (strip (cycle_text is_trunc segments))); cbn;
      (split; [assumption | constructor]).
  - destruct (tpc w); cbn; try (split; [assumption | constructor]);
      destruct (translate args fmt2f prompt output d (svc w) (trl w)) as [t' obs] eqn:Ht;
      pose proof (translate_cursor args fmt2f prompt output d (svc w) (trl w)) as H;
      rewrite Ht in H.
    all: assert (Hb : bursts_of obs = [])
      by (revert Ht; unfold translate, translate_llm, translate_whisper;
          destruct (tstate (trl w)), (mode args), (running (svc w)),
            (transcript_buffer (svc w) !! last_index (trl w)), output;
          intros [= <- <-]; reflexivity).
    all: destruct (tstate t'); cbn; rewrite Hb; (split; [assumption | constructor]).
  - destruct (stream (svc w)), (p_audio (svc w));
      try (split; [assumption | constructor]).
    destruct opened; cbn; (split; [assumption | constructor]).
Qed.

Lemma bursts_of_app (o1 o2 : list Obs) :
  bursts_of (o1 ++ o2) = bursts_of o1 ++ bursts_of o2.
Proof.
  induction o1 as [| o r IH]; [reflexivity |].
  destruct o; cbn; now rewrite ?IH.
Qed.

(** From the start of the recording on, every frame of every burst given
    to the transcriber was kept by the gate; by [loud_exceeds] its mean
    absolute magnitude is above the threshold. *)
Lemma bursts_hold_kept_frames
    (args : Args) (fmt2f : Q -> pystr) (prompt : pystr)
    (closed_stream_raises : bool) (evs : list Event) :
  forall w,
    Forall (fun f => kept_by_gate f = true) (audio_buffer (svc w)) ->
    Forall (Forall (fun f => kept_by_gate f = true))
           (bursts_of (snd (run args fmt2f prompt closed_stream_raises evs w))).
Proof.
  induction evs as [| ev evs IH]; intros w Hall; [constructor |].
  rewrite run_cons. cbn [snd]. rewrite bursts_of_app.
  destruct (step_bursts args fmt2f prompt closed_stream_raises ev w Hall)
    as (H1 & H2).
  apply Forall_app. split; [assumption |]. now apply IH.
Qed.

Lemma kept_by_gate_exceeds (f : Frame) :
  kept_by_gate f = true ->
  exists samples,
    frombuffer_int16 f = Some samples
    /\ float_ltb (Finite (inject_Z SILENCE_THRESHOLD_MEAN)) (mean_abs samples) = true.
Proof.
  unfold kept_by_gate. destruct (frombuffer_int16 f) as [xs |] eqn:Hf; [| discriminate].
  intros Hl. exists xs. split; [reflexivity |].
  apply loud_exceeds; [| assumption]. now apply (frombuffer_int16_range f).
Qed.

(* ===================================================================== *)
(** ** Further properties *)
(* ===================================================================== *)

(** *** Decoding frames *)

Lemma frombuffer_int16_length_upto (n : nat) :
  forall b, length b <= n ->
    match frombuffer_int16 b with
    | Some samples => length b = 2 * length samples
    | None => Nat.odd (length b) = true
    end.
Proof.
  induction n as [| n IH]; intros b Hlen.
  - destruct b; [reflexivity | cbn in Hlen; lia].
  - destruct b as [| lo [| hi r]]; [reflexivity | reflexivity |].
    cbn [frombuffer_int16]. specialize (IH r ltac:(cbn in Hlen; lia)).
    destruct (frombuffer_int16 r) as [xs |].
    + cbn [length]. lia.
    + cbn [length]. now rewrite Nat.odd_succ_succ.
Qed.

(** X1: [np.frombuffer] decodes a buffer of even size into half as many
    samples and raises on a buffer of odd size; in the second case the
    callback raises and leaves the service as it was. *)
Theorem frombuffer_even_or_raises (in_data : Frame) (s : Service) :
  match frombuffer_int16 in_data with
  | Some samples =>
      length in_data = 2 * length samples
      /\ snd (audio_callback in_data s) = Returned
  | None =>
      Nat.odd (length in_data) = true
      /\ audio_callback in_data s = (s, Raised)
  end.
Proof.
  pose proof (frombuffer_int16_length_upto (length in_data) in_data (le_n _)) as H.
  unfold audio_callback.
  destruct (frombuffer_int16 in_data) as [xs |]; [| now split].
  split; [exact H |]. now destruct (loud xs).
Qed.

(** *** The gate *)

(** X2: a frame that the callback appends to the buffer decodes to
    samples whose mean absolute magnitude is above the threshold. *)
Theorem appended_frame_exceeds_threshold (in_data : Frame) (s : Service) :
  audio_buffer (fst (audio_callback in_data s)) = audio_buffer s ++ [in_data] ->
  exists samples,
    frombuffer_int16 in_data = Some samples
    /\ float_ltb (Finite (inject_Z SILENCE_THRESHOLD_MEAN)) (mean_abs samples)
       = true.
Proof.
  rewrite audio_callback_buffer. intros H.
  apply kept_by_gate_exceeds.
  destruct (kept_by_gate in_data); [reflexivity |].
  apply (f_equal (@length Frame)) in H. rewrite length_app in H. cbn in H. lia.
Qed.

Lemma appended_frame_exceeds_threshold_witness :
  exists samples,
    frombuffer_int16 loud_frame = Some samples
    /\ float_ltb (Finite (inject_Z SILENCE_THRESHOLD_MEAN)) (mean_abs samples)
       = true.
Proof.
  apply (appended_frame_exceeds_threshold loud_frame init_service).
  reflexivity.
Defined.

(** X3: for a frame without a sample at -32768 the callback does what the
    comparison of the mean absolute magnitude with the threshold says:
    the frame is appended when the mean is above 300, and the service is
    left as it was otherwise. *)
Theorem unclipped_frame_gated_by_mean
    (in_data : Frame) (samples : list Z) (s : Service) :
  frombuffer_int16 in_data = Some samples ->
  Forall (fun x => x <> (-32768)%Z) samples ->
  audio_callback in_data s
  = (if float_ltb (Finite (inject_Z SILENCE_THRESHOLD_MEAN)) (mean_abs samples)
     then set_audio_buffer (audio_buffer s ++ [in_data]) s
     else s,
     Returned).
Proof.
  intros Hdec Hne. unfold audio_callback. rewrite Hdec.
  rewrite (loud_unclipped samples (frombuffer_int16_range _ _ Hdec) Hne).
  now destruct (float_ltb _ _).
Qed.

Lemma unclipped_frame_gated_by_mean_witness :
  audio_callback loud_frame init_service
  = (set_audio_buffer [loud_frame] init_service, Returned).
Proof.
  apply (unclipped_frame_gated_by_mean loud_frame [4096%Z] init_service).
  - reflexivity.
  - repeat constructor; discriminate.
Defined.

Lemma zsum_abs_bound (t : Z) (xs : list Z) :
  Forall (fun x => (Z.abs x <= t)%Z) xs ->
  (zsum (List.map Z.abs xs) <= t * Z.of_nat (length xs))%Z.
Proof.
  induction 1 as [| x r Hx _ IH]; [cbn; lia |].
  cbn [List.map zsum fold_right length]. fold (zsum (List.map Z.abs r)).
  lia.
Qed.

(** X4: a frame in which no sample exceeds the threshold in magnitude is
    dropped; in particular the empty frame and digital silence are. *)
Theorem quiet_frame_dropped (in_data : Frame) (samples : list Z) (s : Service) :
  frombuffer_int16 in_data = Some samples ->
  Forall (fun x => (Z.abs x <= SILENCE_THRESHOLD_MEAN)%Z) samples ->
  audio_callback in_data s = (s, Returned).
Proof.
  intros Hdec Hq.
  assert (Hne : Forall (fun x => x <> (-32768)%Z) samples).
  { eapply Forall_impl; [exact Hq |]. unfold SILENCE_THRESHOLD_MEAN. cbn. lia. }
  unfold audio_callback. rewrite Hdec.
  rewrite (loud_unclipped samples (frombuffer_int16_range _ _ Hdec) Hne).
  unfold mean_abs. rewrite threshold_ltb_mean.
  pose proof (zsum_abs_bound _ _ Hq) as Hb.
  destruct samples as [| x r]; [reflexivity |].
  cbn [List.map length] in *.
  now rewrite (proj2 (Z.ltb_ge _ _)) by (rewrite length_map; exact Hb).
Qed.

(** Digital silence: two samples at 0. *)
Lemma quiet_frame_dropped_witness :
  audio_callback [x00; x00; x00; x00] init_service = (init_service, Returned).
Proof.
  apply (quiet_frame_dropped [x00; x00; x00; x00] [0%Z; 0%Z] init_service).
  - reflexivity.
  - repeat constructor; discriminate.
Defined.

(** *** Frames on their way to the transcriber *)

(** X5: after any sequence of callbacks the buffer is what it was,
    followed by the frames that pass the gate, in the order of their
    arrival; nothing else of the service is touched. *)
Theorem feed_appends_kept_frames (frames : list Frame) (s : Service) :
  feed frames s
  = set_audio_buffer (audio_buffer s ++ List.filter kept_by_gate frames) s.
Proof.
  revert s. induction frames as [| f r IH]; intros s; cbn [feed fold_left].
  - destruct s. unfold set_audio_buffer. cbn. now rewrite app_nil_r.
  - fold (feed r (fst (audio_callback f s))). rewrite IH, audio_callback_state.
    destruct s as [ab tb rn st pa ts]. unfold set_audio_buffer. cbn.
    destruct (kept_by_gate f); cbn; now rewrite <- ?app_assoc, ?app_nil_r.
Qed.

Lemma frombuffer_int16_app_upto (n : nat) :
  forall a b xa, length a <= n ->
    frombuffer_int16 a = Some xa ->
    frombuffer_int16 (a ++ b)
    = match frombuffer_int16 b with
      | Some xb => Some (xa ++ xb)
      | None => None
      end.
Proof.
  induction n as [| n IH]; intros a b xa Hlen Ha.
  - destruct a; [| cbn in Hlen; lia]. injection Ha as <-. cbn.
    now destruct (frombuffer_int16 b).
  - destruct a as [| lo [| hi r]].
    + injection Ha as <-. cbn. now destruct (frombuffer_int16 b).
    + discriminate.
    + cbn [frombuffer_int16 app] in *.
      destruct (frombuffer_int16 r) as [xr |] eqn:Hr; [| discriminate].
      injection Ha as <-.
      rewrite (IH r b xr ltac:(cbn in Hlen; lia) Hr).
      now destruct (frombuffer_int16 b).
Qed.

(** X6: the bytes written to the WAV file of a burst decode to the
    samples of its frames, one frame after the other, provided every
    frame decodes (as the frames that passed the gate do). *)
Theorem wav_frames_decode (current_buffer : list Frame) :
  Forall (fun f => kept_by_gate f = true) current_buffer ->
  frombuffer_int16 (wav_frames current_buffer)
  = Some (List.concat
            (List.map (fun f => default [] (frombuffer_int16 f)) current_buffer)).
Proof.
  unfold wav_frames. induction 1 as [| f r Hf _ IH]; [reflexivity |].
  cbn [List.concat List.map]. unfold kept_by_gate in Hf.
  destruct (frombuffer_int16 f) as [xs |] eqn:Hd; [| discriminate].
  rewrite (frombuffer_int16_app_upto (length f) f _ xs (le_n _) Hd), IH.
  reflexivity.
Qed.

Lemma wav_frames_decode_witness :
  frombuffer_int16 (wav_frames [loud_frame; loud_frame])
  = Some [4096%Z; 4096%Z].
Proof.
  apply (wav_frames_decode [loud_frame; loud_frame]).
  repeat constructor.
Defined.

Section FrameRuns.

Variable args : Args.
Variable fmt2f : Q -> pystr.
Variable prompt : pystr.
Variable closed_stream_raises : bool.

Local Abbreviation step' := (step args fmt2f prompt closed_stream_raises).
Local Abbreviation run' := (run args fmt2f prompt closed_stream_raises).

(** What the frames properties say of the result [r] of an event or a run
    that brought the frames [frames] to the world [w]. *)
Local Abbreviation frames_kept w frames r :=
  ((List.concat (bursts_of (snd r)) ++ audio_buffer (svc (fst r)))
     `sublist_of`
   (audio_buffer (svc w)
    ++ (if stream_shut (svc w) then [] else List.filter kept_by_gate frames))
   /\ Forall (fun p => 1 <= length (fst p)
                       /\ (snd p = true -> length (fst p) = TRUNC_AUDIO_BUFFER))
             (flagged_bursts_of (snd r))
   /\ (stream_shut (svc w) = true -> stream_shut (svc (fst r)) = true)).

Lemma translate_bursts output d s t :
  bursts_of (snd (translate args fmt2f prompt output d s t)) = []
  /\ flagged_bursts_of (snd (translate args fmt2f prompt output d s t)) = [].
Proof.
  unfold translate, translate_llm, translate_whisper.
  destruct (tstate t), (mode args), (running s),
    (transcript_buffer s !! last_index t), output; split; reflexivity.
Qed.

Lemma complete_cycle_frames start_time is_trunc segments end_time s :
  audio_buffer (fst (complete_cycle args fmt2f start_time is_trunc segments end_time s))
  = audio_buffer s
  /\ stream (fst (complete_cycle args fmt2f start_time is_trunc segments end_time s))
     = stream s
  /\ bursts_of (snd (complete_cycle args fmt2f start_time is_trunc segments end_time s))
     = []
  /\ flagged_bursts_of
       (snd (complete_cycle args fmt2f start_time is_trunc segments end_time s))
     = [].
Proof.
  unfold complete_cycle.
  now destruct (truthy (strip (cycle_text is_trunc segments))).
Qed.

Lemma handle_exit_stream s :
  stream_active (fst (handle_exit closed_stream_raises s)) = false
  /\ (stream s <> None ->
      stream_shut (fst (handle_exit closed_stream_raises s)) = true)
  /\ (stream_shut s = true ->
      stream_shut (fst (handle_exit closed_stream_raises s)) = true).
Proof.
  unfold stream_active, stream_shut, handle_exit, terminate_p_audio, is_active.
  cbn.
  destruct (stream s) as [[] |] eqn:Hst, (p_audio s) eqn:Hp,
    closed_stream_raises; cbn; rewrite ?Hst, ?Hp; cbn; rewrite ?Hst;
    repeat split; congruence.
Qed.

(** An event that hands over no burst and leaves buffer and stream alone. *)
Lemma frames_kept_still w frames (r : World * list Obs) :
  bursts_of (snd r) = [] -> flagged_bursts_of (snd r) = [] ->
  audio_buffer (svc (fst r)) = audio_buffer (svc w) ->
  stream (svc (fst r)) = stream (svc w) ->
  frames_kept w frames r.
Proof.
  intros Hb Hf Ha Hs. rewrite Hb, Hf, Ha. unfold stream_shut. rewrite Hs.
  split; [| split; [constructor | auto]].
  cbn. now apply sublist_inserts_r.
Qed.

Lemma transcriber_tick_frames now early late w :
  frames_kept w (early ++ late) (transcriber_tick now early late w).
Proof.
  unfold transcriber_tick.
  destruct (tpc w); try now apply frames_kept_still.
  rewrite loop_head_eq.
  destruct (running (svc w)); [| now apply frames_kept_still].
  destruct (Nat.ltb_spec 0 (length (audio_buffer (svc w)))) as [Hpos | Hz];
    [| now apply frames_kept_still].
  cbn zeta. cbn [fst snd svc bursts_of flagged_bursts_of List.concat
                 audio_buffer set_audio_buffer stream].
  rewrite !app_nil_r. split; [| split].
  - unfold arrived, stream_shut.
    destruct (TRUNC_AUDIO_BUFFER <? length (audio_buffer (svc w)));
      destruct (stream (svc w)) as [[] |];
      rewrite ?List.filter_app, ?app_nil_r;
      try (etransitivity; [apply sublist_take |]);
      rewrite ?app_nil_r, ?app_assoc;
      first [reflexivity
            | apply sublist_inserts_r; reflexivity
            | do 2 apply sublist_inserts_r; reflexivity].
  - constructor; [| constructor]. cbn [fst snd].
    destruct (Nat.ltb_spec TRUNC_AUDIO_BUFFER (length (audio_buffer (svc w))))
      as [Hlt | Hge].
    + rewrite length_take, length_app. split; [| intros _];
        unfold TRUNC_AUDIO_BUFFER in *; lia.
    + rewrite length_app. split; [lia | discriminate].
  - unfold stream_shut. cbn. auto.
Qed.

(** What one event does to the frames: the bursts it hands over and the
    buffer it leaves are, in this order, a selection of the buffer it
    found and the frames it brought that were kept. *)
Lemma step_frames ev w : frames_kept w (frames_of [ev]) (step' ev w).
Proof.
  destruct ev as [in_data | | now | result end_time | output d
                 | now early late | opened]; cbn [step frames_of].
  - destruct (stream (svc w)) as [[] |] eqn:Hst;
      try (apply frames_kept_still; reflexivity).
    pose proof (audio_callback_state in_data (svc w)) as Hs.
    unfold stream_shut. rewrite Hst.
    destruct (audio_callback in_data (svc w)) as [s' []]; cbn in Hs; subst s';
      cbn [fst snd svc with_svc bursts_of flagged_bursts_of List.concat app
           List.filter audio_buffer set_audio_buffer stream];
      (split; [destruct (kept_by_gate in_data); reflexivity
              | split; [constructor | discriminate]]).
  - pose proof (handle_exit_keeps closed_stream_raises (svc w)) as (_ & _ & Hb).
    pose proof (handle_exit_stream (svc w)) as (_ & _ & Hn).
    destruct (handle_exit closed_stream_raises (svc w)) as [s' []];
      destruct (tpc w); cbn in *; rewrite ?Hb;
      (split; [destruct (stream_shut (svc w)); now rewrite ?app_nil_r
              | split; [constructor | exact Hn]]).
  - pose proof (transcriber_tick_frames now [] [] w) as H. exact H.
  - destruct (tpc w) as [| start_time cur is_trunc |];
      try (apply frames_kept_still; reflexivity).
    destruct result as [segments |]; [| apply frames_kept_still; reflexivity].
    pose proof (complete_cycle_frames start_time is_trunc segments end_time
                  (svc w)) as (Hb & Hs & Ho & Hf).
    destruct (complete_cycle args fmt2f start_time is_trunc segments end_time
                (svc w)) as [s' obs].
    now apply frames_kept_still.
  - pose proof (translate_bursts output d (svc w) (trl w)) as (Ho & Hf).
    destruct (translate args fmt2f prompt output d (svc w) (trl w)) as [t' obs].
    destruct (tpc w); [destruct (tstate t') | | destruct (tstate t')];
      now apply frames_kept_still.
  - rewrite app_nil_r. apply transcriber_tick_frames.
  - destruct (stream (svc w)) eqn:Hst; [apply frames_kept_still; reflexivity |].
    destruct (p_audio (svc w)); [apply frames_kept_still; reflexivity |].
    unfold stream_shut. rewrite Hst.
    destruct opened; cbn; rewrite ?app_nil_r;
      (split; [reflexivity | split; [constructor | discriminate]]).
Qed.

Lemma frames_of_cons ev evs : frames_of (ev :: evs) = frames_of [ev] ++ frames_of evs.
Proof. destruct ev; cbn; rewrite ?app_nil_r, <- ?app_assoc; reflexivity. Qed.

Lemma flagged_bursts_of_app o1 o2 :
  flagged_bursts_of (o1 ++ o2) = flagged_bursts_of o1 ++ flagged_bursts_of o2.
Proof.
  induction o1 as [| o r IH]; [reflexivity |].
  destruct o; cbn; now rewrite ?IH.
Qed.

Lemma run_frames evs : forall w, frames_kept w (frames_of evs) (run' evs w).
Proof.
  induction evs as [| ev evs IH]; intros w.
  - cbn. split; [| split; [constructor | auto]].
    destruct (stream_shut (svc w)); now rewrite ?app_nil_r.
  - rewrite run_cons. cbn [fst snd].
    destruct (step_frames ev w) as (S1 & S2 & S3).
    destruct (IH (fst (step' ev w))) as (R1 & R2 & R3).
    rewrite bursts_of_app, flagged_bursts_of_app, concat_app. split; [| split].
    + rewrite <- app_assoc.
      etransitivity; [apply sublist_app; [reflexivity | exact R1] |].
      rewrite app_assoc.
      etransitivity; [apply sublist_app; [exact S1 | reflexivity] |].
      rewrite <- app_assoc. apply sublist_app; [reflexivity |].
      destruct (stream_shut (svc w)) eqn:Ha.
      * rewrite (S3 eq_refl). constructor.
      * rewrite (frames_of_cons ev evs), List.filter_app.
        apply sublist_app; [reflexivity |].
        destruct (stream_shut (svc (fst (step' ev w))));
          [apply sublist_nil_l | reflexivity].
    + apply Forall_app. now split.
    + auto.
Qed.

(** A stopped service hands over no burst: the loop tests the flag before
    it drains. *)
Lemma step_stopped_bursts ev w :
  running (svc w) = false -> bursts_of (snd (step' ev w)) = [].
Proof.
  intros Hoff.
  destruct ev as [in_data | | now | result end_time | output d
                 | now early late | opened]; cbn [step].
  - destruct (stream (svc w)) as [[] |]; try reflexivity.
    now destruct (audio_callback in_data (svc w)) as [s' []].
  - destruct (handle_exit closed_stream_raises (svc w)) as [s' []];
      now destruct (tpc w).
  - unfold transcriber_tick. destruct (tpc w); try reflexivity.
    now rewrite loop_head_eq, Hoff.
  - destruct (tpc w) as [| start_time cur is_trunc |]; try reflexivity.
    destruct result as [segments |]; [| reflexivity].
    pose proof (complete_cycle_frames start_time is_trunc segments end_time
                  (svc w)) as (_ & _ & Ho & _).
    now destruct (complete_cycle args fmt2f start_time is_trunc segments
                    end_time (svc w)).
  - pose proof (translate_bursts output d (svc w) (trl w)) as (Ho & _).
    destruct (translate args fmt2f prompt output d (svc w) (trl w)) as [t' obs].
    destruct (tpc w); [destruct (tstate t') | | destruct (tstate t')];
      first [reflexivity | exact Ho].
  - unfold transcriber_tick. destruct (tpc w); try reflexivity.
    now rewrite loop_head_eq, Hoff.
  - destruct (stream (svc w)), (p_audio (svc w)); try reflexivity.
    now destruct opened.
Qed.

Lemma run_stopped_bursts evs : forall w,
  running (svc w) = false -> bursts_of (snd (run' evs w)) = [].
Proof.
  induction evs as [| ev evs IH]; intros w Hoff; [reflexivity |].
  rewrite run_cons. cbn [snd].
  rewrite bursts_of_app, (step_stopped_bursts ev w Hoff).
  apply IH.
  now apply (step_stopped args fmt2f prompt closed_stream_raises ev w).
Qed.

End FrameRuns.

(** X7: every burst handed to the transcriber holds at least one frame,
    and a burst handed over as truncated holds exactly
    [TRUNC_AUDIO_BUFFER] = 60 frames, in every run, whatever the capture
    thread delivers during the drains. *)
Theorem bursts_never_empty
    (args : Args) (fmt2f : Q -> pystr) (prompt : pystr)
    (closed_stream_raises : bool) (evs : list Event) (w : World) :
  Forall (fun p => 1 <= length (fst p) /\ (snd p = true -> length (fst p) = 60))
         (flagged_bursts_of
            (snd (run args fmt2f prompt closed_stream_raises evs w))).
Proof. apply run_frames. Qed.

(** X8: the frames of the bursts of a run, followed by the frames still
    buffered at its end, are a selection, in the same order, of the frames
    buffered at its start followed by the delivered frames that pass the
    gate: no frame reaches the transcriber twice or out of order, and none
    that the gate refused. *)
Theorem bursts_select_kept_frames
    (args : Args) (fmt2f : Q -> pystr) (prompt : pystr)
    (closed_stream_raises : bool) (evs : list Event) (w : World) :
  let r := run args fmt2f prompt closed_stream_raises evs w in
  (List.concat (bursts_of (snd r)) ++ audio_buffer (svc (fst r)))
    `sublist_of`
  (audio_buffer (svc w) ++ List.filter kept_by_gate (frames_of evs)).
Proof.
  cbn zeta.
  destruct (run_frames args fmt2f prompt closed_stream_raises evs w) as (H & _).
  cbn zeta in H. etransitivity; [exact H |].
  apply sublist_app; [reflexivity |].
  destruct (stream_shut (svc w)); [apply sublist_nil_l | reflexivity].
Qed.

(** X9: once the stream has been opened, no frame enters the buffer after
    the shutdown signal: whatever the capture thread delivers, the bursts
    and the buffer of the rest of the run only hold frames that were
    buffered when the signal came. *)
Theorem no_frame_enters_after_signal
    (args : Args) (fmt2f : Q -> pystr) (prompt : pystr)
    (closed_stream_raises : bool) (evs : list Event) (w : World) :
  stream (svc w) <> None ->
  let w1 := fst (step args fmt2f prompt closed_stream_raises EvSignal w) in
  let r := run args fmt2f prompt closed_stream_raises evs w1 in
  stream_active (svc (fst r)) = false
  /\ (List.concat (bursts_of (snd r)) ++ audio_buffer (svc (fst r)))
       `sublist_of` audio_buffer (svc w).
Proof.
  intros Hopen. cbn zeta.
  set (w1 := fst (step args fmt2f prompt closed_stream_raises EvSignal w)).
  assert (H1 : stream_shut (svc w1) = true
               /\ audio_buffer (svc w1) = audio_buffer (svc w)).
  { subst w1. cbn [step].
    pose proof (handle_exit_keeps closed_stream_raises (svc w)) as (_ & _ & Hb).
    pose proof (handle_exit_stream closed_stream_raises (svc w)) as (_ & Hs & _).
    specialize (Hs Hopen).
    destruct (handle_exit closed_stream_raises (svc w)) as [s' []];
      destruct (tpc w); cbn in *; now split. }
  destruct H1 as [Hs Hb].
  destruct (run_frames args fmt2f prompt closed_stream_raises evs w1)
    as (R1 & _ & R3).
  cbn zeta in *. rewrite Hs, app_nil_r, Hb in R1. split; [| exact R1].
  specialize (R3 Hs). revert R3. clear. unfold stream_shut, stream_active.
  destruct (stream (svc (fst (run args fmt2f prompt closed_stream_raises evs w1))))
    as [[] |]; congruence.
Qed.

(** A started service gets the signal while frames keep coming. *)
Lemma no_frame_enters_after_signal_witness :
  let evs := [EvFrame loud_frame;
              EvTranscriberTickRacing 0%Q [loud_frame] [loud_frame]] in
  let r := run console_args no_digits [] true evs
             (fst (step console_args no_digits [] true EvSignal initial_world)) in
  stream (svc initial_world) <> None
  /\ stream_active (svc (fst r)) = false
  /\ (List.concat (bursts_of (snd r)) ++ audio_buffer (svc (fst r)))
       `sublist_of` audio_buffer (svc initial_world).
Proof.
  cbn zeta.
  assert (H : stream (svc initial_world) <> None) by (vm_compute; discriminate).
  split; [exact H |].
  exact (no_frame_enters_after_signal console_args no_digits [] true _
           initial_world H).
Defined.

(** X25: a drain during which the capture thread delivers frames.  The
    excess is tested on the buffer as the loop found it; the burst is
    copied from the buffer with the frames kept before the copy, cut to 60
    only if the test found an excess; and the buffer is reset after the
    frames kept later have come, which are lost with it. *)
Theorem racing_drain_loses_late_frames
    (args : Args) (fmt2f : Q -> pystr) (prompt : pystr)
    (closed_stream_raises : bool) (now : Q) (early late : list Frame)
    (w : World) :
  tpc w = AtLoopHead ->
  running (svc w) = true ->
  audio_buffer (svc w) <> [] ->
  let is_trunc := TRUNC_AUDIO_BUFFER <? length (audio_buffer (svc w)) in
  let seen :=
    audio_buffer (svc w)
    ++ (if stream_active (svc w) then List.filter kept_by_gate early else []) in
  let burst := if is_trunc then firstn TRUNC_AUDIO_BUFFER seen else seen in
  step args fmt2f prompt closed_stream_raises
    (EvTranscriberTickRacing now early late) w
  = ({| svc := set_audio_buffer [] (svc w);
        tpc := InFlight now burst is_trunc; trl := trl w |},
     [ObsBurst burst is_trunc])
  /\ (is_trunc = true -> burst = firstn TRUNC_AUDIO_BUFFER (audio_buffer (svc w))).
Proof.
  intros Hpc Hrun Hne. cbn zeta. cbn [step]. unfold transcriber_tick.
  rewrite Hpc, loop_head_eq, Hrun.
  assert (Hpos : (0 <? length (audio_buffer (svc w))) = true).
  { apply Nat.ltb_lt. destruct (audio_buffer (svc w)); [congruence | cbn; lia]. }
  rewrite Hpos. cbn zeta.
  assert (Harr : arrived early (svc w)
                 = if stream_active (svc w)
                   then List.filter kept_by_gate early else []).
  { unfold arrived, stream_active. now destruct (stream (svc w)) as [[] |]. }
  rewrite Harr. split; [reflexivity |].
  intros Ht. rewrite Ht. apply Nat.ltb_lt in Ht.
  rewrite take_app_le by lia. reflexivity.
Qed.

(** 60 frames are buffered; one frame comes before the copy and one
    after it. *)
Lemma racing_drain_loses_late_frames_witness :
  let r := step console_args no_digits [] true
             (EvTranscriberTickRacing 0%Q [loud_frame] [loud_frame])
             full_buffer_world in
  snd r = [ObsBurst (repeat loud_frame 61) false]
  /\ audio_buffer (svc (fst r)) = [].
Proof.
  cbn zeta.
  assert (H1 : tpc full_buffer_world = AtLoopHead) by (vm_compute; reflexivity).
  assert (H2 : running (svc full_buffer_world) = true)
    by (vm_compute; reflexivity).
  assert (H3 : audio_buffer (svc full_buffer_world) <> [])
    by (vm_compute; discriminate).
  destruct (racing_drain_loses_late_frames console_args no_digits [] true 0%Q
              [loud_frame] [loud_frame] full_buffer_world H1 H2 H3) as [E _].
  rewrite E. split; vm_compute; reflexivity.
Defined.

(** X26: on a service that has its stream and its PyAudio instance, the
    first signal leaves the stream closed, and where PyAudio raises for
    [is_active()] on a closed stream, the handler raises at the second
    signal: the test of line 59 is on the stream object, which stays in
    place when the stream is closed.  The exception ends the loop of
    [transcribe_audio]. *)
Theorem second_signal_raises
    (args : Args) (fmt2f : Q -> pystr) (prompt : pystr) (w : World) :
  stream (svc w) <> None ->
  p_audio (svc w) <> None ->
  let once := step args fmt2f prompt true EvSignal w in
  let twice := step args fmt2f prompt true EvSignal (fst once) in
  stream (svc (fst once)) = Some StreamClosed
  /\ snd (handle_exit true (svc (fst once))) = Raised
  /\ snd twice = [ObsError]
  /\ tpc (fst twice) = Finished.
Proof.
  intros Hst Hpa. cbn zeta.
  assert (H1 : stream (svc (fst (step args fmt2f prompt true EvSignal w)))
               = Some StreamClosed).
  { cbn [step]. unfold handle_exit, terminate_p_audio, is_active. cbn.
    destruct (stream (svc w)) as [[] |] eqn:Es; [| | | congruence];
      destruct (p_audio (svc w)) as [p |] eqn:Ep; try congruence;
      cbn; rewrite ?Es, ?Ep; cbn; rewrite ?Es; try reflexivity.
    destruct (tpc w); cbn; now rewrite ?Es. }
  set (w1 := fst (step args fmt2f prompt true EvSignal w)) in *.
  assert (H2 : handle_exit true (svc w1) = (set_running false (svc w1), Raised)).
  { unfold handle_exit. cbn. now rewrite H1. }
  split; [exact H1 |]. split; [now rewrite H2 |].
  cbn [step]. rewrite H2. destruct (tpc w1); split; reflexivity.
Qed.

(** Two signals after the recording has started. *)
Lemma second_signal_raises_witness :
  let once := step console_args no_digits [] true EvSignal initial_world in
  let twice := step console_args no_digits [] true EvSignal (fst once) in
  snd once = [] /\ snd twice = [ObsError] /\ tpc (fst twice) = Finished.
Proof.
  cbn zeta. split; [reflexivity |].
  destruct (second_signal_raises console_args no_digits [] initial_world)
    as (_ & _ & H3 & H4); [discriminate | discriminate |].
  split; [exact H3 | exact H4].
Defined.

(** *** Cycles, timings and yields *)

Lemma truthy_lstrip (s : pystr) :
  truthy (lstrip s) = existsb (fun c => negb (isspace c)) s.
Proof.
  induction s as [| c r IH]; [reflexivity |].
  cbn [lstrip existsb]. destruct (isspace c); [exact IH | reflexivity].
Qed.

Lemma existsb_lstrip (s : pystr) :
  existsb (fun c => negb (isspace c)) (lstrip s)
  = existsb (fun c => negb (isspace c)) s.
Proof.
  induction s as [| c r IH]; [reflexivity |].
  cbn [lstrip]. destruct (isspace c) eqn:Hc; [| reflexivity].
  cbn [existsb]. now rewrite Hc, IH.
Qed.

Lemma existsb_rev_eq {A} (f : A -> bool) (l : list A) :
  existsb f (rev l) = existsb f l.
Proof.
  induction l as [| x r IH]; [reflexivity |].
  cbn [rev existsb]. rewrite existsb_app, IH. cbn. now rewrite orb_false_r, orb_comm.
Qed.

Lemma truthy_rev {A} (l : list A) :
  match rev l with [] => false | _ :: _ => true end
  = match l with [] => false | _ :: _ => true end.
Proof.
  destruct l as [| x r]; [reflexivity |]. cbn [rev].
  now destruct (rev r).
Qed.

(** The test of line 176 asks for a character that is not white space. *)
Lemma truthy_strip (s : pystr) :
  truthy (strip s) = existsb (fun c => negb (isspace c)) s.
Proof.
  unfold strip, rstrip, truthy. rewrite truthy_rev.
  fold (truthy (lstrip (rev (lstrip s)))).
  now rewrite truthy_lstrip, existsb_rev_eq, existsb_lstrip.
Qed.

(** X10: a cycle appends its text exactly when the text (the marker of a
    truncated burst included) holds a character that is not white space
    for [str.strip]; it then appends this text untrimmed. *)
Theorem cycle_appends_iff_visible_character
    (args : Args) (fmt2f : Q -> pystr)
    (start_time end_time : Q) (is_trunc : bool)
    (segments : list WhisperSegment) (s : Service) :
  let text := cycle_text is_trunc segments in
  transcript_buffer
    (fst (complete_cycle args fmt2f start_time is_trunc segments end_time s))
  = transcript_buffer s
    ++ (if existsb (fun c => negb (isspace c)) text then [text] else []).
Proof.
  cbn zeta. rewrite complete_cycle_transcript. now rewrite truthy_strip.
Qed.

(** X11: a cycle records its timing under the id it computed, the length
    of the transcript, with the delay [end - start], and leaves the
    timings of all other ids alone; the text it appends, if any, is stored
    at this very index of the transcript. *)
Theorem cycle_timing_under_segment_id
    (args : Args) (fmt2f : Q -> pystr)
    (start_time end_time : Q) (is_trunc : bool)
    (segments : list WhisperSegment) (s : Service) :
  let segment_id := length (transcript_buffer s) in
  let text := cycle_text is_trunc segments in
  let s' := fst (complete_cycle args fmt2f start_time is_trunc segments end_time s) in
  segment_timestamps s' !! segment_id
  = Some {| t_start := start_time; t_end := end_time;
            t_delay := Qminus end_time start_time |}
  /\ delete segment_id (segment_timestamps s')
     = delete segment_id (segment_timestamps s)
  /\ transcript_buffer s' !! segment_id
     = (if truthy (strip text) then Some text else None).
Proof.
  cbn zeta. unfold complete_cycle.
  destruct (truthy (strip (cycle_text is_trunc segments)));
    cbn [fst segment_timestamps transcript_buffer set_segment_timestamps
         set_transcript_buffer];
    (split; [apply lookup_insert_eq |]); (split; [apply delete_insert_eq |]).
  - rewrite lookup_app_r by lia. now rewrite Nat.sub_diag.
  - apply lookup_ge_None. lia.
Qed.

Section LogRuns.

Variable args : Args.
Variable fmt2f : Q -> pystr.
Variable prompt : pystr.
Variable closed_stream_raises : bool.

Local Abbreviation step' := (step args fmt2f prompt closed_stream_raises).
Local Abbreviation run' := (run args fmt2f prompt closed_stream_raises).

Lemma complete_cycle_timed start_time is_trunc segments end_time s :
  timed s ->
  timed (fst (complete_cycle args fmt2f start_time is_trunc segments end_time s)).
Proof.
  intros [H1 H2]. unfold timed, complete_cycle.
  destruct (truthy (strip (cycle_text is_trunc segments)));
    cbn [fst segment_timestamps transcript_buffer set_segment_timestamps
         set_transcript_buffer]; split.
  - intros i Hi. rewrite length_app in Hi. cbn in Hi.
    destruct (decide (i = length (transcript_buffer s))) as [-> | Hne].
    + rewrite lookup_insert_eq. eauto.
    + rewrite lookup_insert_ne by congruence. apply H1. lia.
  - intros k Hk. rewrite length_app. cbn.
    destruct (decide (k = length (transcript_buffer s))) as [-> | Hne]; [lia |].
    rewrite lookup_insert_ne in Hk by congruence. specialize (H2 k Hk). lia.
  - intros i Hi. rewrite lookup_insert_ne by lia. now apply H1.
  - intros k Hk.
    destruct (decide (k = length (transcript_buffer s))) as [-> | Hne]; [lia |].
    rewrite lookup_insert_ne in Hk by congruence. now apply H2.
Qed.

Lemma timed_same s s' :
  transcript_buffer s' = transcript_buffer s ->
  segment_timestamps s' = segment_timestamps s ->
  timed s -> timed s'.
Proof. unfold timed. now intros -> ->. Qed.

Lemma handle_exit_timings s :
  segment_timestamps (fst (handle_exit closed_stream_raises s))
  = segment_timestamps s.
Proof.
  unfold handle_exit, terminate_p_audio, is_active. cbn.
  destruct (stream s) as [[] |], (p_audio s), closed_stream_raises; reflexivity.
Qed.

Lemma step_timed ev w : timed (svc w) -> timed (svc (fst (step' ev w))).
Proof.
  intros Ht.
  destruct (is_quiet ev) eqn:Hq.
  { destruct (step_quiet args fmt2f prompt closed_stream_raises ev w Hq) as (_ & Hb & Hs & _).
    cbn zeta in *. now apply (timed_same (svc w)). }
  destruct ev as [in_data | | now | result end_time | output d
                 | now early late | opened];
    try discriminate Hq; cbn [step].
  - pose proof (handle_exit_keeps closed_stream_raises (svc w)) as (Hl & _).
    pose proof (handle_exit_timings (svc w)) as Hs.
    destruct (handle_exit closed_stream_raises (svc w)) as [s' []];
      destruct (tpc w); cbn in *; now apply (timed_same (svc w)).
  - destruct (tpc w) as [| start_time cur is_trunc |]; try exact Ht.
    destruct result as [segments |].
    + pose proof (complete_cycle_timed start_time is_trunc segments end_time
                    (svc w) Ht) as H.
      now destruct (complete_cycle args fmt2f start_time is_trunc segments
                      end_time (svc w)).
    + cbn. now apply (timed_same (svc w)).
  - destruct (translate args fmt2f prompt output d (svc w) (trl w)) as [t' obs].
    destruct (tpc w); try exact Ht; now destruct (tstate t').
Qed.

End LogRuns.

(** X12: in every run that starts where each Segment of the transcript has
    a timing entry and no timing is stored beyond the next id, this stays
    so: the translator finds the delay of every Segment it reads. *)
Theorem timings_cover_transcript
    (args : Args) (fmt2f : Q -> pystr) (prompt : pystr)
    (closed_stream_raises : bool) (evs : list Event) :
  forall w,
    timed (svc w) ->
    timed (svc (fst (run args fmt2f prompt closed_stream_raises evs w))).
Proof.
  induction evs as [| ev evs IH]; intros w Ht; [exact Ht |].
  rewrite run_cons. cbn [fst]. apply IH. now apply step_timed.
Qed.

Lemma timings_cover_transcript_witness :
  timed (svc (fst (run console_args no_digits [] true
                     (cycle_in_flight
                      ++ [EvTranscribed (Some [spoken " hi" (1 # 10)]) 1%Q])
                     initial_world))).
Proof.
  apply (timings_cover_transcript console_args no_digits [] true
           (cycle_in_flight ++ [EvTranscribed (Some [spoken " hi" (1 # 10)]) 1%Q])
           initial_world).
  split.
  - cbn. intros i Hi. lia.
  - cbn. intros k [x Hx]. rewrite lookup_empty in Hx. discriminate.
Defined.

(** *** What is yielded and what is read *)

Section YieldRuns.

Variable args : Args.
Variable fmt2f : Q -> pystr.
Variable prompt : pystr.
Variable closed_stream_raises : bool.

Local Abbreviation step' := (step args fmt2f prompt closed_stream_raises).
Local Abbreviation run' := (run args fmt2f prompt closed_stream_raises).

Local Abbreviation yield_of_append' := (yield_of_append args fmt2f).

Lemma yields_of_app o1 o2 : yields_of (o1 ++ o2) = yields_of o1 ++ yields_of o2.
Proof.
  induction o1 as [| o r IH]; [reflexivity |].
  destruct o; cbn; now rewrite ?IH.
Qed.

Lemma read_entries_of_app o1 o2 :
  read_entries_of (o1 ++ o2) = read_entries_of o1 ++ read_entries_of o2.
Proof.
  induction o1 as [| o r IH]; [reflexivity |].
  destruct o; cbn; now rewrite ?IH.
Qed.

Lemma reads_of_entries obs : reads_of obs = List.map fst (read_entries_of obs).
Proof.
  induction obs as [| o r IH]; [reflexivity |].
  destruct o; cbn; now rewrite ?IH.
Qed.

(** What [translate] lets be observed: no append, no yield, and at most
    the reading of the entry under its cursor. *)
Lemma translate_obs output d s t :
  let obs := snd (translate args fmt2f prompt output d s t) in
  yields_of obs = []
  /\ Forall (fun p => transcript_buffer s !! fst p = Some (snd p))
            (read_entries_of obs)
  /\ (running s = false -> read_entries_of obs = [])
  /\ (mode args = ModeTranscribe -> read_entries_of obs = []).
Proof.
  unfold translate, translate_llm, translate_whisper.
  destruct (tstate t); cbn zeta; try (repeat split; auto; constructor).
  destruct (mode args); try (repeat split; auto; constructor);
    destruct (running s); try (repeat split; auto; constructor);
    destruct (transcript_buffer s !! last_index t) as [text |] eqn:Hl;
    try (repeat split; auto; constructor);
    try destruct output; cbn;
    (split; [reflexivity |]); (split; [repeat constructor; exact Hl |]);
    split; discriminate.
Qed.

Lemma complete_cycle_yields start_time is_trunc segments end_time s :
  let obs := snd (complete_cycle args fmt2f start_time is_trunc segments end_time s) in
  Forall2 yield_of_append' (yields_of obs) (appends_of obs)
  /\ read_entries_of obs = [].
Proof.
  unfold complete_cycle, yield_of_append.
  destruct (truthy (strip (cycle_text is_trunc segments))); cbn;
    [| split; [constructor | reflexivity]].
  split; [| reflexivity]. constructor; [| constructor]. cbn.
  destruct (show_delay args); [eexists |]; reflexivity.
Qed.

Lemma step_obs ev w :
  let r := step' ev w in
  Forall2 yield_of_append' (yields_of (snd r)) (appends_of (snd r))
  /\ Forall (fun p => transcript_buffer (svc w) !! fst p = Some (snd p))
            (read_entries_of (snd r))
  /\ (running (svc w) = false -> read_entries_of (snd r) = [])
  /\ (mode args = ModeTranscribe -> read_entries_of (snd r) = []).
Proof.
  cbn zeta.
  destruct (is_quiet ev) eqn:Hq.
  { destruct (step_quiet args fmt2f prompt closed_stream_raises ev w Hq)
      as (_ & _ & _ & Ha & _ & Hy & Hr & _).
    cbn zeta in *. rewrite Ha, Hy, Hr. repeat split; auto; constructor. }
  destruct ev as [in_data | | now | result end_time | output d
                 | now early late | opened];
    try discriminate Hq; cbn [step].
  - destruct (handle_exit closed_stream_raises (svc w)) as [s' []];
      destruct (tpc w); cbn; repeat split; auto; constructor.
  - destruct (tpc w) as [| start_time cur is_trunc |]; cbn;
      try (repeat split; auto; constructor).
    destruct result as [segments |]; cbn;
      [| repeat split; auto; constructor].
    pose proof (complete_cycle_yields start_time is_trunc segments end_time
                  (svc w)) as (Hy & Hr).
    destruct (complete_cycle args fmt2f start_time is_trunc segments end_time
                (svc w)) as [s' obs].
    cbn in *. rewrite Hr. repeat split; auto; constructor.
  - pose proof (translate_obs output d (svc w) (trl w)) as (Hy & Hr & Ho & Hm).
    pose proof (translate_cursor args fmt2f prompt output d (svc w) (trl w)) as Hc.
    destruct (translate args fmt2f prompt output d (svc w) (trl w)) as [t' obs].
    destruct Hc as (Ha & _). cbn in Hy, Hr, Ho, Hm.
    destruct (tpc w); [destruct (tstate t') | | destruct (tstate t')]; cbn;
      rewrite ?Hy, ?Ha; repeat split; auto; constructor.
Qed.

Lemma run_obs evs : forall w,
  let r := run' evs w in
  Forall2 yield_of_append' (yields_of (snd r)) (appends_of (snd r))
  /\ Forall (fun p => transcript_buffer (svc (fst r)) !! fst p = Some (snd p))
            (read_entries_of (snd r))
  /\ (mode args = ModeTranscribe -> read_entries_of (snd r) = []).
Proof.
  induction evs as [| ev evs IH]; intros w; cbn zeta.
  - cbn. repeat split; auto; constructor.
  - rewrite run_cons. cbn [fst snd].
    destruct (step_obs ev w) as (S1 & S2 & _ & S4).
    destruct (IH (fst (step' ev w))) as (R1 & R2 & R4). cbn zeta in *.
    rewrite yields_of_app, appends_of_app, read_entries_of_app.
    split; [now apply Forall2_app |]. split.
    + apply Forall_app. split; [| exact R2].
      destruct (run_log args fmt2f prompt closed_stream_raises evs
                  (fst (step' ev w))) as (L2 & _).
      destruct (step_log args fmt2f prompt closed_stream_raises ev w) as (L1 & _).
      cbn zeta in *. rewrite L2, L1.
      eapply Forall_impl; [exact S2 |]. intros [i t] Hi. cbn in *.
      rewrite <- app_assoc. now apply lookup_app_l_Some.
    + intros Hm. now rewrite (S4 Hm), (R4 Hm).
Qed.


End YieldRuns.


(** X14: whatever the translator read in a run, under position [i] it read
    the text that the transcript holds at index [i] at the end of the
    run. *)
Theorem translator_reads_transcript_entries
    (args : Args) (fmt2f : Q -> pystr) (prompt : pystr)
    (closed_stream_raises : bool) (evs : list Event) (w : World) :
  let r := run args fmt2f prompt closed_stream_raises evs w in
  Forall (fun p => transcript_buffer (svc (fst r)) !! fst p = Some (snd p))
         (read_entries_of (snd r)).
Proof. apply run_obs. Qed.

(** X15: in mode transcribe the translator never reads the transcript. *)
Theorem transcribe_mode_reads_nothing
    (args : Args) (fmt2f : Q -> pystr) (prompt : pystr)
    (closed_stream_raises : bool) (evs : list Event) (w : World) :
  mode args = ModeTranscribe ->
  read_entries_of (snd (run args fmt2f prompt closed_stream_raises evs w)) = [].
Proof. apply run_obs. Qed.

Lemma transcribe_mode_reads_nothing_witness :
  read_entries_of
    (snd (run console_args no_digits [] true
            (cycle_in_flight
             ++ [EvTranscribed (Some [spoken " hi" (1 # 10)]) 1%Q;
                 EvTranslatorTick (Some (lit "salut")) 0%Q])
            initial_world))
  = [].
Proof.
  apply (transcribe_mode_reads_nothing console_args no_digits [] true
           (cycle_in_flight
            ++ [EvTranscribed (Some [spoken " hi" (1 # 10)]) 1%Q;
                EvTranslatorTick (Some (lit "salut")) 0%Q])
           initial_world).
  reflexivity.
Defined.



(** *** The translator catches up *)

Section CatchUp.

Variable args : Args.
Variable fmt2f : Q -> pystr.
Variable prompt : pystr.
Variable closed_stream_raises : bool.
Variable translation_delay : Q.

Local Abbreviation run' := (run args fmt2f prompt closed_stream_raises).

(** The translator is resumed once for each of [outputs], and the model,
    where it is asked, answers with that output. *)
Local Abbreviation ticks outputs :=
  (List.map (fun o => EvTranslatorTick (Some o) translation_delay) outputs).

Lemma run_ticks outputs : forall w,
  mode args <> ModeTranscribe ->
  running (svc w) = true ->
  tstate (trl w) = TLoop ->
  in_flight (tpc w) = false ->
  let r := run' (ticks outputs) w in
  let todo := length (transcript_buffer (svc w)) - last_index (trl w) in
  reads_of (snd r) = seq (last_index (trl w)) (Nat.min (length outputs) todo)
  /\ last_index (trl (fst r))
     = last_index (trl w) + Nat.min (length outputs) todo
  /\ tstate (trl (fst r)) = TLoop
  /\ svc (fst r) = svc w.
Proof.
  induction outputs as [| o outputs IH]; intros w Hm Hrun Hloop Hidle; cbn zeta.
  - cbn. repeat split; auto; lia.
  - cbn [List.map]. rewrite run_cons. cbn [fst snd step].
    assert (Hstep :
      exists t' obs,
        translate args fmt2f prompt (Some o) translation_delay (svc w) (trl w)
        = (t', obs)
        /\ tstate t' = TLoop
        /\ ((last_index (trl w) < length (transcript_buffer (svc w))
             /\ last_index t' = S (last_index (trl w))
             /\ reads_of obs = [last_index (trl w)])
            \/ (length (transcript_buffer (svc w)) <= last_index (trl w)
                /\ last_index t' = last_index (trl w)
                /\ reads_of obs = []))).
    { unfold translate, translate_llm, translate_whisper. rewrite Hloop, Hrun.
      destruct (transcript_buffer (svc w) !! last_index (trl w)) as [text |] eqn:Hl.
      - pose proof (lookup_lt_Some _ _ _ Hl) as Hlt.
        destruct (mode args); [contradiction | |];
          do 2 eexists; (split; [reflexivity |]); cbn;
          (split; [reflexivity |]); left; repeat split; auto; lia.
      - pose proof (proj1 (lookup_ge_None _ _) Hl) as Hge.
        destruct (mode args); [contradiction | |];
          do 2 eexists; (split; [reflexivity |]);
          (split; [now destruct (trl w) |]); right; repeat split; auto. }
    destruct Hstep as (t' & obs & Ht & Hl' & Hcase). rewrite Ht.
    assert (Hw1 : (match tpc w with
                   | InFlight _ _ _ => (w, [])
                   | _ => match tstate t' with
                          | TFailed => ({| svc := svc w; tpc := Finished; trl := t' |}, obs)
                          | _ => ({| svc := svc w; tpc := tpc w; trl := t' |}, obs)
                          end
                   end)
                  = ({| svc := svc w; tpc := tpc w; trl := t' |}, obs)).
    { rewrite Hl'. now destruct (tpc w). }
    rewrite Hw1. cbn [fst snd].
    specialize (IH {| svc := svc w; tpc := tpc w; trl := t' |} Hm Hrun Hl' Hidle).
    cbn zeta in IH. cbn [svc trl] in IH. destruct IH as (I1 & I2 & I3 & I4).
    rewrite reads_of_app, I1, I2, I4. cbn [length].
    destruct Hcase as [(Hlt & Hli & Hr) | (Hge & Hli & Hr)]; rewrite Hli, Hr.
    + replace (Nat.min (S (length outputs))
                 (length (transcript_buffer (svc w)) - last_index (trl w)))
        with (S (Nat.min (length outputs)
                   (length (transcript_buffer (svc w)) - S (last_index (trl w)))))
        by lia.
      repeat split; auto; lia.
    + replace (length (transcript_buffer (svc w)) - last_index (trl w)) with 0 by lia.
      rewrite !Nat.min_0_r. cbn. repeat split; auto; lia.
Qed.

End CatchUp.

(** X17: in the two translate modes, while the service runs and no cycle
    is in flight, a translator whose model answers reads one Segment per
    turn, in order, until it has read the whole transcript: [k] turns take
    it [min k (length - last_index)] positions further, and it goes on. *)
Theorem translator_catches_up
    (args : Args) (fmt2f : Q -> pystr) (prompt : pystr)
    (closed_stream_raises : bool) (translation_delay : Q)
    (outputs : list pystr) (w : World) :
  mode args <> ModeTranscribe ->
  running (svc w) = true ->
  tstate (trl w) = TLoop ->
  in_flight (tpc w) = false ->
  let r := run args fmt2f prompt closed_stream_raises
             (List.map (fun o => EvTranslatorTick (Some o) translation_delay)
                       outputs) w in
  let todo := length (transcript_buffer (svc w)) - last_index (trl w) in
  reads_of (snd r) = seq (last_index (trl w)) (Nat.min (length outputs) todo)
  /\ last_index (trl (fst r))
     = last_index (trl w) + Nat.min (length outputs) todo
  /\ tstate (trl (fst r)) = TLoop.
Proof.
  intros Hm Hrun Hloop Hidle. cbn zeta.
  destruct (run_ticks args fmt2f prompt closed_stream_raises translation_delay
              outputs w Hm Hrun Hloop Hidle) as (H1 & H2 & H3 & _).
  now repeat split.
Qed.

(** One Segment in the transcript, three turns of the translator. *)
Lemma translator_catches_up_witness :
  let w := fst (run llm_args no_digits [] true
                  (cycle_in_flight
                   ++ [EvTranscribed (Some [spoken " hi" (1 # 10)]) 1%Q])
                  initial_world) in
  let r := run llm_args no_digits [] true
             (List.map (fun o => EvTranslatorTick (Some o) 0%Q)
                       [lit "a"; lit "b"; lit "c"]) w in
  reads_of (snd r) = [0]
  /\ last_index (trl (fst r)) = 1
  /\ tstate (trl (fst r)) = TLoop.
Proof.
  apply (translator_catches_up llm_args no_digits [] true 0%Q
           [lit "a"; lit "b"; lit "c"]
           (fst (run llm_args no_digits [] true
                   (cycle_in_flight
                    ++ [EvTranscribed (Some [spoken " hi" (1 # 10)]) 1%Q])
                   initial_world))).
  - discriminate.
  - reflexivity.
  - reflexivity.
  - reflexivity.
Defined.

(** *** Escaping the text for the page *)

(** What [escaped_text] makes of one character. *)
Lemma escaped_text_cons (c : N) (r : pystr) :
  escaped_text (c :: r)
  = (if (c =? quote)%N then [backslash; quote]
     else if (c =? line_feed)%N then [backslash; 110%N]
     else [c])
    ++ escaped_text r.
Proof.
  unfold escaped_text. cbn [replace_char].
  destruct (N.eqb_spec c quote) as [-> | Hq]; [reflexivity |].
  cbn [replace_char]. now destruct (c =? line_feed)%N.
Qed.

Lemma escaped_text_app (a b : pystr) :
  escaped_text (a ++ b) = escaped_text a ++ escaped_text b.
Proof.
  induction a as [| c r IH]; [reflexivity |].
  rewrite <- app_comm_cons, !escaped_text_cons, IH. now rewrite app_assoc.
Qed.

(** X18: the escaped text holds no line feed. *)
Theorem escaped_text_has_no_line_feed (text : pystr) :
  forallb (fun c => negb (c =? line_feed)%N) (escaped_text text) = true.
Proof.
  induction text as [| c r IH]; [reflexivity |].
  rewrite escaped_text_cons, forallb_app, IH, andb_true_r.
  destruct (N.eqb_spec c quote) as [-> | Hq]; [reflexivity |].
  destruct (N.eqb_spec c line_feed) as [-> | Hl]; [reflexivity |].
  cbn. now rewrite (proj2 (N.eqb_neq _ _) Hl).
Qed.

(** X19: in the escaped text every double quote stands directly behind a
    backslash. *)
Theorem escaped_quote_follows_backslash (text : pystr) (i : nat) :
  escaped_text text !! i = Some quote ->
  exists j, i = S j /\ escaped_text text !! j = Some backslash.
Proof.
  revert i. induction text as [| c r IH]; intros i Hi; [discriminate |].
  rewrite escaped_text_cons in Hi |- *.
  destruct (N.eqb_spec c quote) as [-> | Hq];
    [| destruct (N.eqb_spec c line_feed) as [-> | Hl]].
  - destruct i as [| [| i]]; [discriminate | now exists 0 |].
    cbn in Hi. destruct (IH i Hi) as (j & -> & Hj). now exists (S (S j)).
  - destruct i as [| [| i]]; [discriminate | discriminate |].
    cbn in Hi. destruct (IH i Hi) as (j & -> & Hj). now exists (S (S j)).
  - destruct i as [| i]; [cbn in Hi; congruence |].
    cbn in Hi. destruct (IH i Hi) as (j & -> & Hj). now exists (S j).
Qed.

(** The text a, double quote, b: the quote ends up at index 2, behind a
    backslash. *)
Lemma escaped_quote_follows_backslash_witness :
  escaped_text [97%N; quote; 98%N] = [97%N; backslash; quote; 98%N]
  /\ exists j, 2 = S j /\ escaped_text [97%N; quote; 98%N] !! j = Some backslash.
Proof.
  split; [reflexivity |].
  apply (escaped_quote_follows_backslash [97%N; quote; 98%N] 2). reflexivity.
Defined.

(** X20: a text without double quote and without line feed is passed to
    the page as it is. *)
Theorem escaped_text_plain (text : pystr) :
  forallb (fun c => negb (c =? quote)%N && negb (c =? line_feed)%N) text = true ->
  escaped_text text = text.
Proof.
  induction text as [| c r IH]; [reflexivity |].
  cbn [forallb]. intros H. apply andb_true_iff in H as [Hc Hr].
  apply andb_true_iff in Hc as [Hq Hl].
  rewrite escaped_text_cons, (IH Hr).
  apply negb_true_iff in Hq, Hl. now rewrite Hq, Hl.
Qed.

Lemma escaped_text_plain_witness :
  escaped_text (lit " hi (truncated)") = lit " hi (truncated)".
Proof. apply (escaped_text_plain (lit " hi (truncated)")). reflexivity. Defined.

(** X21: a backslash is not escaped, so the escaping cannot be undone: a
    line feed and the two characters backslash, n give the same escaped
    text, wherever they stand. *)
Theorem escaped_text_confuses_line_feed (before after : pystr) :
  escaped_text (before ++ [line_feed] ++ after)
  = escaped_text (before ++ [backslash; 110%N] ++ after)
  /\ escaped_text (before ++ [backslash])
     = escaped_text before ++ [backslash].
Proof. now rewrite !escaped_text_app. Qed.

(** *** Devices *)

Lemma flat_map_seq_sorted {A} (f : nat -> list (nat * A)) (n : nat) :
  (forall i, List.map fst (f i) = [] \/ List.map fst (f i) = [i]) ->
  forall a,
    StronglySorted lt (List.map fst (flat_map f (seq a n)))
    /\ Forall (fun i => a <= i) (List.map fst (flat_map f (seq a n))).
Proof.
  intros Hf. induction n as [| n IH]; intros a; cbn [seq flat_map].
  - split; constructor.
  - destruct (IH (S a)) as [Hs Hb]. rewrite map_app.
    destruct (Hf a) as [-> | ->]; cbn [app].
    + split; [exact Hs |]. eapply Forall_impl; [exact Hb |]. cbn. lia.
    + split.
      * constructor; [exact Hs |]. eapply Forall_impl; [exact Hb |]. cbn. lia.
      * constructor; [lia |]. eapply Forall_impl; [exact Hb |]. cbn. lia.
Qed.

(** X22: [list_audio_devices] returns the pair of index and name of
    exactly the devices with at least one input channel, by increasing
    index. *)
Theorem list_audio_devices_lists_inputs
    (devices : list DeviceInfo) (i : nat) (name : pystr) :
  (In (i, name) (list_audio_devices devices)
   <-> exists info,
         devices !! i = Some info
         /\ (0 < maxInputChannels info)%Z
         /\ name = dev_name info)
  /\ StronglySorted lt (List.map fst (list_audio_devices devices)).
Proof.
  split.
  - unfold list_audio_devices. rewrite in_flat_map. split.
    + intros (j & _ & Hin).
      destruct (devices !! j) as [info |] eqn:Hj; [| contradiction].
      destruct (Z.ltb_spec 0 (maxInputChannels info)) as [Hpos | Hneg];
        [| contradiction].
      destruct Hin as [[= <- <-] | []]. now exists info.
    + intros (info & Hi & Hpos & ->). exists i. split.
      * apply in_seq. pose proof (lookup_lt_Some _ _ _ Hi). lia.
      * rewrite Hi, (proj2 (Z.ltb_lt _ _) Hpos). now left.
  - apply (flat_map_seq_sorted _ (length devices)). intros j.
    destruct (devices !! j) as [info |]; [| now left].
    destruct (0 <? maxInputChannels info)%Z; [now right | now left].
Qed.

(** *** Choosing the device and starting the stream *)

Lemma startswith_spec (hay needle : pystr) :
  startswith hay needle = true <-> exists rest, hay = needle ++ rest.
Proof.
  revert hay. induction needle as [| a needle IH]; intros hay.
  - destruct hay; cbn; split; eauto.
  - destruct hay as [| b hay]; cbn [startswith].
    + split; [discriminate | intros [rest H]; discriminate].
    + rewrite andb_true_iff, N.eqb_eq, IH. split.
      * intros [-> [rest ->]]. now exists rest.
      * intros [rest [= -> ->]]. eauto.
Qed.

(** The model of [needle in hay] is the substring test. *)
Lemma contains_spec (hay needle : pystr) :
  contains hay needle = true
  <-> exists before after, hay = before ++ needle ++ after.
Proof.
  induction hay as [| b hay IH]; cbn [contains];
    rewrite orb_true_iff, startswith_spec.
  - split.
    + intros [[rest H] | H]; [| discriminate]. now exists [], rest.
    + intros (before & after & H). left.
      destruct before; [now exists after |]. discriminate.
  - rewrite IH. split.
    + intros [[rest H] | (before & after & H)].
      * now exists [], rest.
      * exists (b :: before), after. now rewrite H.
    + intros (before & after & H). destruct before as [| c before].
      * left. now exists after.
      * right. injection H as -> ->. now exists before, after.
Qed.

Section StartProperties.

Variable lower : pystr -> pystr.
Variable parse_int : pystr -> option Z.
Variable open_ok : option Z -> bool.

Lemma search_device_spec (device : pystr) (devices : list DeviceInfo) :
  forall first,
    match search_device lower device first devices with
    | Some i =>
        exists k info,
          i = first + k
          /\ devices !! k = Some info
          /\ device_matches lower device info = true
          /\ Forall (fun d => device_matches lower device d = false)
                    (firstn k devices)
    | None => Forall (fun d => device_matches lower device d = false) devices
    end.
Proof.
  induction devices as [| info rest IH]; intros first; cbn [search_device].
  - constructor.
  - destruct (device_matches lower device info) eqn:Hm.
    + exists 0, info. repeat split; auto; constructor.
    + specialize (IH (S first)).
      destruct (search_device lower device (S first) rest) as [i |].
      * destruct IH as (k & info' & -> & Hk & Hmk & Hbefore).
        exists (S k), info'.
        split; [lia |]. split; [exact Hk |]. split; [exact Hmk |].
        cbn. now constructor.
      * now constructor.
Qed.

End StartProperties.

(** X23: for a [--device] that is not a number, the device chosen is the
    first one, by index, that has an input channel and whose name in
    lower case contains the given text in lower case; when there is none
    the choice fails.  A match among devices without input channel does
    not count. *)
Theorem named_device_is_first_match
    (lower : pystr -> pystr) (parse_int : pystr -> option Z)
    (device : pystr) (devices : list DeviceInfo) :
  truthy device = true ->
  parse_int device = None ->
  match choose_device lower parse_int (Some device) devices with
  | DeviceIndex z =>
      exists i info before after,
        z = Z.of_nat i
        /\ devices !! i = Some info
        /\ (0 < maxInputChannels info)%Z
        /\ lower (dev_name info) = before ++ lower device ++ after
        /\ Forall (fun d => device_matches lower device d = false)
                  (firstn i devices)
  | DeviceNotFound =>
      Forall (fun d => device_matches lower device d = false) devices
  | DefaultDevice => False
  end.
Proof.
  intros Ht Hp. unfold choose_device. rewrite Ht, Hp.
  pose proof (search_device_spec lower device devices 0) as H.
  destruct (search_device lower device 0 devices) as [i |]; [| exact H].
  destruct H as (k & info & -> & Hk & Hm & Hbefore).
  unfold device_matches in Hm. apply andb_true_iff in Hm as [Hch Hc].
  apply contains_spec in Hc as (before & after & Hc).
  exists k, info, before, after. repeat split; auto. now apply Z.ltb_lt.
Qed.

(** Three devices: an output whose name matches, a microphone whose name
    does not, and the USB microphone; the text is [usb]. *)
Lemma named_device_is_first_match_witness :
  let devices :=
    [{| dev_name := lit "usb speaker"; maxInputChannels := 0;
        defaultSampleRate := 44100%Q |};
     {| dev_name := lit "built-in mic"; maxInputChannels := 2;
        defaultSampleRate := 44100%Q |};
     {| dev_name := lit "usb mic"; maxInputChannels := 1;
        defaultSampleRate := 16000%Q |}] in
  choose_device (fun s => s) (fun _ => None) (Some (lit "usb")) devices
  = DeviceIndex 2
  /\ exists i info before after,
       2%Z = Z.of_nat i
       /\ devices !! i = Some info
       /\ (0 < maxInputChannels info)%Z
       /\ dev_name info = before ++ lit "usb" ++ after
       /\ Forall (fun d => device_matches (fun s => s) (lit "usb") d = false)
                 (firstn i devices).
Proof.
  cbn zeta. split; [reflexivity |].
  exact (named_device_is_first_match (fun s => s) (fun _ => None)
           (lit "usb")
           [{| dev_name := lit "usb speaker"; maxInputChannels := 0;
               defaultSampleRate := 44100%Q |};
            {| dev_name := lit "built-in mic"; maxInputChannels := 2;
               defaultSampleRate := 44100%Q |};
            {| dev_name := lit "usb mic"; maxInputChannels := 1;
               defaultSampleRate := 16000%Q |}]
           eq_refl eq_refl).
Defined.

(** X24: [start_transcription] returns with the recording started exactly
    when a device was chosen (none asked for, a number given, or a name
    that matches) and PyAudio opened the stream for it.  Then the stream
    is active and the running flag is as it was, also where a signal had
    cleared it before.  Otherwise the flag is cleared, the stream is as it
    was and the PyAudio instance stays unterminated; from then on no burst
    reaches the transcriber and nothing is appended to the transcript,
    whatever happens.  The buffers are not touched. *)
Theorem start_recording_outcomes
    (lower : pystr -> pystr) (parse_int : pystr -> option Z)
    (open_ok : option Z -> bool)
    (device : option pystr) (devices : list DeviceInfo) (s : Service) :
  let r := start_recording lower parse_int open_ok device devices s in
  (snd r = Returned <->
   match choose_device lower parse_int device devices with
   | DefaultDevice => open_ok None = true
   | DeviceIndex i => open_ok (Some i) = true
   | DeviceNotFound => False
   end)
  /\ (snd r = Returned ->
      stream (fst r) = Some StreamActive /\ running (fst r) = running s)
  /\ (snd r = Raised ->
      stream (fst r) = stream s /\ running (fst r) = false
      /\ forall args fmt2f prompt closed_stream_raises evs t,
           let out := run args fmt2f prompt closed_stream_raises evs
                        {| svc := fst r; tpc := Finished; trl := t |} in
           bursts_of (snd out) = [] /\ appends_of (snd out) = [])
  /\ p_audio (fst r) = Some PaInitialized
  /\ audio_buffer (fst r) = audio_buffer s
  /\ transcript_buffer (fst r) = transcript_buffer s.
Proof.
  cbn zeta.
  assert (Hrun : forall s', running s' = false ->
            forall args fmt2f prompt closed_stream_raises evs t,
              bursts_of (snd (run args fmt2f prompt closed_stream_raises evs
                                {| svc := s'; tpc := Finished; trl := t |})) = []
              /\ appends_of (snd (run args fmt2f prompt closed_stream_raises evs
                                    {| svc := s'; tpc := Finished; trl := t |})) = []).
  { intros s' Hoff args fmt2f prompt c evs t.
    split; [now apply run_stopped_bursts |].
    destruct (run_stopped args fmt2f prompt c evs
                {| svc := s'; tpc := Finished; trl := t |} Hoff) as [_ Hlen].
    cbn in Hlen.
    destruct (appends_of _); [reflexivity | cbn in Hlen; lia]. }
  unfold start_recording, begin_stream.
  destruct (choose_device lower parse_int device devices) as [| i |];
    [destruct (open_ok None) | destruct (open_ok (Some i)) |];
    cbn [fst snd stream running p_audio audio_buffer transcript_buffer
         set_stream set_running set_p_audio];
    (split; [split; first [reflexivity | discriminate | contradiction] |]);
    (split; [intros Hr; first [discriminate Hr | split; reflexivity] |]);
    (split; [intros Hr; first [discriminate Hr
                              | split; [reflexivity
                                       | split; [reflexivity
                                                | now apply Hrun]]]
            | repeat split; reflexivity]).
Qed.
